(** * Event retrieval pipeline of [eventfetcher/event_retriever.py]

    A shallow embedding of the Python module: the [Event] decoder, the
    paginated transaction query, the textual log parser with its filters,
    and the persisted set of processed transaction hashes.  Python
    dictionaries are finite maps, the processed-event set is a finite set
    of the objects that a JSON file can hold, exceptions are an explicit
    outcome and the retriever object together with its JSON file is a state
    threaded through every call.  A string lists the characters of a Python
    [str]; the characters have codes below 256. *)

From Stdlib Require Import Ascii String QArith Qcanon.
From stdpp Require Import gmap strings list fin_maps.

Local Open Scope string_scope.
Local Open Scope list_scope.
Local Open Scope nat_scope.

(** ** Python exceptions and outcomes *)

Inductive exn : Type :=
| KeyError (key : string)
| TypeError
| AttributeError
| IndexError
| JSONDecodeError.

(** The outcome of running a piece of the program: a value, a raised
    exception, or [Diverge] when the fuel of a [while True] loop ran out. *)
Inductive outcome (A : Type) : Type :=
| Ret (a : A)
| Raise (e : exn)
| Diverge.
Arguments Ret {A} a.
Arguments Raise {A} e.
Arguments Diverge {A}.

Definition obind {A B} (x : outcome A) (k : A → outcome B) : outcome B :=
  match x with
  | Ret a => k a
  | Raise e => Raise e
  | Diverge => Diverge
  end.

Notation "'do' x <- c1 ; c2" := (obind c1 (fun x => c2))
  (at level 10, x name, c1 at level 100, c2 at level 200).

(** ** Python string primitives *)

Module Py.

(** The double-quote character, which the parser searches for. *)
Definition dquote : string := String (ascii_of_nat 34) EmptyString.
Definition newline : string := String (ascii_of_nat 10) EmptyString.

(** [old in s] for a non-empty [old]. *)
Fixpoint contains (old s : string) : bool :=
  String.prefix old s ||
  match s with
  | EmptyString => false
  | String _ s' => contains old s'
  end.

(** [s.replace(old, new)] for a non-empty [old]: matches are taken left
    to right and do not overlap; [skip] counts the characters of the
    current match that are still to be dropped. *)
Fixpoint replace_from (skip : nat) (old new s : string) : string :=
  match s with
  | EmptyString => EmptyString
  | String c s' =>
      match skip with
      | S k => replace_from k old new s'
      | O =>
          if String.prefix old s
          then new +:+ replace_from (String.length old - 1) old new s'
          else String c (replace_from 0 old new s')
      end
  end.

Definition replace (old new s : string) : string := replace_from 0 old new s.

(** [s.split(sep)] for a non-empty [sep]; [cur] is the piece being
    read. *)
Fixpoint split_from (skip : nat) (sep : string) (cur : string) (s : string)
  : list string :=
  match s with
  | EmptyString => [cur]
  | String c s' =>
      match skip with
      | S k => split_from k sep cur s'
      | O =>
          if String.prefix sep s
          then cur :: split_from (String.length sep - 1) sep EmptyString s'
          else split_from 0 sep (cur +:+ String c EmptyString) s'
      end
  end.

Definition split (sep s : string) : list string :=
  split_from 0 sep EmptyString s.

(** [l[i]], raising [IndexError] out of range. *)
Definition index {A} (l : list A) (i : nat) : outcome A :=
  match l !! i with
  | Some a => Ret a
  | None => Raise IndexError
  end.

(** Truthiness of an optional string: [None] and the empty string are
    falsy. *)
Definition truthy (v : option string) : bool :=
  match v with
  | Some (String _ _) => true
  | _ => false
  end.

(** [a or b]. *)
Definition or (a b : option string) : option string :=
  if truthy a then a else b.

End Py.

(** ** The trade pair of an event identifier *)

(** The character class [[A-Za-z/]]. *)
Definition pair_char (c : ascii) : bool :=
  let n := nat_of_ascii c in
  (((65 <=? n) && (n <=? 90)) || ((97 <=? n) && (n <=? 122)) || (n =? 47))%nat.

(** The longest prefix of [s] made of characters of the class: what the
    greedy [[A-Za-z/]+] consumes when anchored at the start. *)
Fixpoint leading_run (s : string) : string :=
  match s with
  | EmptyString => EmptyString
  | String c s' => if pair_char c then String c (leading_run s') else EmptyString
  end.

(** [re.match(r"([A-Za-z/]+)", id)]: [None] when the run is empty. *)
Definition re_match_pair (id : string) : option string :=
  match leading_run id with
  | EmptyString => None
  | run => Some run
  end.

(** [Event.extract_trade_pair]: [re.match] rejects a [None] argument with
    [TypeError], and [.group] on a failed match raises [AttributeError]. *)
Definition extract_trade_pair (id : option string) : outcome string :=
  match id with
  | None => Raise TypeError
  | Some s =>
      match re_match_pair s with
      | Some run => Ret run
      | None => Raise AttributeError
      end
  end.

(** ** The event model *)

Inductive ActionType : Type := REFUND | TRANSFER | PARTIAL_TRANSFER | CREATE.

(** [action.value] *)
Definition ActionType_value (a : ActionType) : string :=
  match a with
  | REFUND => "refund"
  | TRANSFER => "transfer"
  | PARTIAL_TRANSFER => "partial_transfer"
  | CREATE => "create"
  end.

(** Values a field of an [Event] can hold at run time. *)
Inductive pyval : Type :=
| PyNone
| PyStr (s : string)
| PyBool (b : bool).

Definition pyval_of (v : option string) : pyval :=
  match v with
  | Some s => PyStr s
  | None => PyNone
  end.

Record Event : Type := mkEvent {
  id : option string;
  txn_hash : string;
  action : option string;
  from_address : option string;
  to_address : option string;
  amount : option string;
  trade_pair : string;
  sell_price : option string;
  escrow_address : option string;
  remaining_amount : option string;
  preferred_agent : option string;
  match_others : pyval
}.

(** [Event.__init__].  The last parameter has the default [True]: it is
    [None] here when the caller leaves the argument out, and [Some v] when
    the caller passes [v]. *)
Definition Event_init (id : option string) (txn_hash : string)
    (action from_address to_address amount : option string)
    (trade_pair : string) (sell_price escrow_address : option string)
    (remaining_amount preferred_agent : option string)
    (match_others : option pyval) : Event :=
  mkEvent id txn_hash action from_address to_address amount trade_pair
    sell_price escrow_address remaining_amount preferred_agent
    (default (PyBool true) match_others).

(** [event_dict[key]] *)
Definition getitem (event_dict : gmap string string) (key : string)
  : outcome string :=
  match event_dict !! key with
  | Some v => Ret v
  | None => Raise (KeyError key)
  end.

(** [Event.from_dict] *)
Definition from_dict (event_dict : gmap string string) : outcome Event :=
  do txn_hash <- getitem event_dict "TxnHash";
  let action := Py.or (event_dict !! "action") (event_dict !! "action1") in
  let from_address := Py.or (event_dict !! "from") (event_dict !! "from1") in
  let to_address := Py.or (event_dict !! "to") (event_dict !! "to1") in
  let amount := Py.or (event_dict !! "amount") (event_dict !! "amount1") in
  let id := Py.or (event_dict !! "id") (event_dict !! "id1") in
  do trade_pair <- extract_trade_pair id;
  let sell_price :=
    Py.or (event_dict !! "sell_price") (event_dict !! "sell_price1") in
  let escrow_address := event_dict !! "escrow_contract_address" in
  let remaining_amount :=
    Py.or (event_dict !! "remaining_amount")
          (event_dict !! "remaining_amount1") in
  let preferred_agent :=
    Py.or (event_dict !! "preferred_agent")
          (event_dict !! "preferred_agent1") in
  let match_others :=
    Py.or (event_dict !! "match_others") (event_dict !! "match_others1") in
  Ret (Event_init id txn_hash action from_address to_address amount
         trade_pair sell_price escrow_address remaining_amount
         preferred_agent (Some (pyval_of match_others))).

(** ** The log parser and the filters *)

(** A transaction response: its hash and, for each log, the text that
    [str(obj.events)] renders. *)
Record tx : Type := mkTx {
  txhash : string;
  logs : list string
}.

(** Iteration of a loop body that may raise. *)
Fixpoint ofold {A B} (f : A → B → outcome A) (a : A) (l : list B)
  : outcome A :=
  match l with
  | [] => Ret a
  | b :: l' => do a' <- f a b; ofold f a' l'
  end.

(** The body of [for pair in pairs] on the key and value already cut out
    of the pair.  All values of [result] are strings, so when [key] is
    present [result.get(key, 0) + 1] adds an integer to a string. *)
Definition add_attribute (result : gmap string string) (key value : string)
  : outcome (gmap string string) :=
  if decide (key = "_contract_address") then
    let contract_count := size result - 1 in
    let key :=
      if (contract_count =? 0)%nat then "cw20_contract_address"
      else "escrow_contract_address" in
    Ret (<[key := value]> result)
  else
    match result !! key with
    | Some _ => Raise TypeError
    | None =>
        let key_count := "1" in
        let key := key +:+ key_count in
        Ret (<[key := value]> result)
    end.

(** [for pair in pairs]: the key is the text before the first quote, the
    value the text between the second and the third. *)
Definition attribute_step (result : gmap string string) (pair : string)
  : outcome (gmap string string) :=
  do key <- Py.index (Py.split Py.dquote pair) 0;
  do value <- Py.index (Py.split Py.dquote pair) 2;
  add_attribute result key value.

(** The attribute loop over keys and values. *)
Definition add_attributes (result : gmap string string)
    (kvs : list (string * string)) : outcome (gmap string string) :=
  ofold (λ r kv, add_attribute r kv.1 kv.2) result kvs.

Definition wasm_tag : string := "type: " +:+ Py.dquote +:+ "wasm" +:+ Py.dquote.

(** The attribute bag of one wasm-tagged piece of a log. *)
Definition parse_bag (txhash : string) (event : string)
  : outcome (gmap string string) :=
  let item := Py.replace "attributes {" EmptyString
                (Py.replace wasm_tag EmptyString event) in
  let pairs := tail (Py.split ("key: " +:+ Py.dquote) item) in
  ofold attribute_step {["TxnHash" := txhash]} pairs.

(** The [action_type] argument of the filter. *)
Inductive action_arg : Type :=
| ActNone
| ActOne (a : ActionType)
| ActList (l : list ActionType).

Definition action_types_of (action_type : action_arg) : list ActionType :=
  match action_type with
  | ActNone => []
  | ActOne a => [a]
  | ActList l => l
  end.

Definition neqb (v : option string) (s : string) : bool :=
  negb (bool_decide (v = Some s)).

(** The two [continue] tests. *)
Definition action_skips (action_type : action_arg)
    (result : gmap string string) : bool :=
  match action_type with
  | ActNone => false
  | _ =>
      let action_types := action_types_of action_type in
      negb (bool_decide (action_types = [])) &&
      forallb (λ a, neqb (result !! "action") (ActionType_value a) &&
                    neqb (result !! "action1") (ActionType_value a))
              action_types
  end.

Definition wallet_skips (user_wallet_address : option string)
    (result : gmap string string) : bool :=
  match user_wallet_address with
  | None => false
  | Some w => neqb (result !! "from") w && neqb (result !! "from1") w
  end.

(** The body of [for event in json_events]. *)
Definition filter_event (action_type : action_arg)
    (user_wallet_address : option string) (txhash : string)
    (filtered_data : list Event) (event : string) : outcome (list Event) :=
  if Py.contains wasm_tag event then
    do result <- parse_bag txhash event;
    if action_skips action_type result then Ret filtered_data
    else if wallet_skips user_wallet_address result then Ret filtered_data
    else do ev <- from_dict result; Ret (filtered_data ++ [ev])
  else Ret filtered_data.

Definition json_events_of (events : string) : list string :=
  Py.split ","
    (Py.replace "  " EmptyString
       (Py.replace Py.newline EmptyString
          (Py.replace "]" EmptyString
             (Py.replace "[" EmptyString events)))).

(** The body of [for obj in tx.logs]. *)
Definition filter_log (action_type : action_arg)
    (user_wallet_address : option string) (txhash : string)
    (filtered_data : list Event) (events : string) : outcome (list Event) :=
  ofold (filter_event action_type user_wallet_address txhash)
        filtered_data (json_events_of events).

(** The body of [for tx in resp]. *)
Definition filter_tx (action_type : action_arg)
    (user_wallet_address : option string)
    (filtered_data : list Event) (t : tx) : outcome (list Event) :=
  ofold (filter_log action_type user_wallet_address (txhash t))
        filtered_data (logs t).

(** [EventRetriever._filter_events] *)
Definition _filter_events (resp : list tx) (action_type : action_arg)
    (user_wallet_address : option string) : outcome (list Event) :=
  ofold (filter_tx action_type user_wallet_address) [] resp.

(** ** The paginated query *)

(** What one [GetTxsEvent] call answers: a page of transactions and the
    total the service reports in [pagination.total]. *)
Record response : Type := mkResponse {
  tx_responses : list tx;
  total : nat
}.

(** The transaction query service, asked with the event queries and the
    offset of a [PageRequest]. *)
Definition service : Type := list string → nat → response.

(** The [while True] loop of [_query_txs_events], entered with the current
    [offset] and [res]; [fuel] bounds the number of calls. *)
Fixpoint query_loop (fuel : nat) (txs : service) (queries : list string)
    (offset : nat) (res : list tx) : outcome (list tx) :=
  match fuel with
  | O => Diverge
  | S fuel' =>
      let tx_res := txs queries offset in
      let res := res ++ tx_responses tx_res in
      let offset := offset + length (tx_responses tx_res) in
      if total tx_res <=? offset then Ret res
      else query_loop fuel' txs queries offset res
  end.

(** [EventRetriever._query_txs_events] *)
Definition _query_txs_events (fuel : nat) (txs : service)
    (queries : list string) : outcome (list tx) :=
  query_loop fuel txs queries 0 [].

(** The same loop, recording in [calls] the offset of every request it
    sends. *)
Fixpoint query_loop_trace (fuel : nat) (txs : service) (queries : list string)
    (offset : nat) (res : list tx) (calls : list nat)
  : outcome (list tx * list nat) :=
  match fuel with
  | O => Diverge
  | S fuel' =>
      let tx_res := txs queries offset in
      let calls := calls ++ [offset] in
      let res := res ++ tx_responses tx_res in
      let offset := offset + length (tx_responses tx_res) in
      if total tx_res <=? offset then Ret (res, calls)
      else query_loop_trace fuel' txs queries offset res calls
  end.

Definition query_trace (fuel : nat) (txs : service) (queries : list string)
  : outcome (list tx * list nat) :=
  query_loop_trace fuel txs queries 0 [] [].

(** [EventRetriever._get_events] *)
Definition _get_events (fuel : nat) (txs : service) (contract_address : string)
    (wasm_action : option string) : outcome (list tx) :=
  let queries := ["execute._contract_address='" +:+ contract_address +:+ "'"] in
  let queries :=
    match wasm_action with
    | Some a => queries ++ ["wasm.action='" +:+ a +:+ "'"]
    | None => queries
    end in
  _query_txs_events fuel txs queries.

(** The loop seen from outside: the offset and the records held after [n]
    calls, when nothing has stopped the loop before. *)
Fixpoint offset_after (txs : service) (queries : list string) (n : nat) : nat :=
  match n with
  | O => 0
  | S m =>
      let o := offset_after txs queries m in
      o + length (tx_responses (txs queries o))
  end.

Fixpoint records_after (txs : service) (queries : list string) (n : nat)
  : list tx :=
  match n with
  | O => []
  | S m =>
      records_after txs queries m
        ++ tx_responses (txs queries (offset_after txs queries m))
  end.

(** Call number [n] (counted from 0) brings the count of records received
    up to the total that this call reports. *)
Definition reached (txs : service) (queries : list string) (n : nat) : Prop :=
  total (txs queries (offset_after txs queries n))
    ≤ offset_after txs queries (S n).

(** A service that holds its records in consecutive pages: asked at the
    offset where a page starts it answers that page, and it always reports
    the number of records of all pages. *)
Fixpoint page_at (pages : list (list tx)) (offset : nat) : list tx :=
  match pages with
  | [] => []
  | p :: ps => if (offset =? 0)%nat then p else page_at ps (offset - length p)
  end.

Definition paged_service (pages : list (list tx)) : service :=
  λ _ offset, mkResponse (page_at pages offset) (length (concat pages)).

(** The offsets at which the pages start, the first one at [start]. *)
Fixpoint page_offsets (start : nat) (pages : list (list tx)) : list nat :=
  match pages with
  | [] => []
  | p :: ps => start :: page_offsets (start + length p) ps
  end.

(** The service as the remote party it is: what it answers to a request may
    change from one call to the next, and a call may raise.
    [txs n queries offset] is the outcome of call number [n] of the loop,
    counted from 0, when that call asks with [queries] at [offset]. *)
Definition remote_service : Type := nat → list string → nat → outcome response.

(** The [while True] loop of [_query_txs_events] against such a service,
    entered at call number [call] with the current [offset] and [res]. *)
Fixpoint query_loop_remote (fuel : nat) (txs : remote_service)
    (queries : list string) (call offset : nat) (res : list tx)
  : outcome (list tx) :=
  match fuel with
  | O => Diverge
  | S fuel' =>
      do tx_res <- txs call queries offset;
      let res := res ++ tx_responses tx_res in
      let offset := offset + length (tx_responses tx_res) in
      if total tx_res <=? offset then Ret res
      else query_loop_remote fuel' txs queries (S call) offset res
  end.

Definition _query_txs_events_remote (fuel : nat) (txs : remote_service)
    (queries : list string) : outcome (list tx) :=
  query_loop_remote fuel txs queries 0 0 [].

(** A service that answers a request in the same way at every call. *)
Definition steady (txs : service) : remote_service :=
  λ _ queries offset, Ret (txs queries offset).

(** The offset and the records with which the loop sends call number [n],
    when no earlier call has raised or ended the loop. *)
Fixpoint state_before (txs : remote_service) (queries : list string) (n : nat)
  : option (nat * list tx) :=
  match n with
  | O => Some (0, [])
  | S m =>
      match state_before txs queries m with
      | Some (offset, res) =>
          match txs m queries offset with
          | Ret tx_res =>
              let res := res ++ tx_responses tx_res in
              let offset := offset + length (tx_responses tx_res) in
              if total tx_res <=? offset then None else Some (offset, res)
          | Raise _ | Diverge => None
          end
      | None => None
      end
  end.

(** ** JSON values and Python sets *)

(** The value of a Python number: a rational, an infinity or the float
    [nan].  Python compares [bool], [int] and [float] objects by this
    value, so [True == 1 == 1.0]. *)
Inductive numval : Type :=
| Fin (q : Qc)
| Inf (negative : bool)
| NaN.

(** The kind of object that [json.load] makes of a number or truth value:
    a [bool], an [int], a [float], or the float [-0.0], which is equal to
    [0] but is written back with its sign. *)
Inductive numkind : Type := KBool | KInt | KFloat | KMinusZero.

(** What [json.load] returns. *)
Unset Elimination Schemes.
Inductive json : Type :=
| JNull
| JNum (kind : numkind) (value : numval)
| JStr (s : string)
| JArr (items : list json)
| JObj (members : list (string * json)).
Set Elimination Schemes.

Definition JBool (b : bool) : json :=
  JNum KBool (Fin (if b then 1%Qc else 0%Qc)).
Definition JInt (n : Z) : json := JNum KInt (Fin (Qc_of_Z n)).

Global Instance numval_eq_dec : EqDecision numval.
Proof. solve_decision. Defined.

Global Instance numval_countable : Countable numval.
Proof.
  refine (inj_countable'
            (λ v, match v with
                  | Fin q => inl q
                  | Inf b => inr (Some b)
                  | NaN => inr None
                  end)
            (λ x, match x with
                  | inl q => Fin q
                  | inr (Some b) => Inf b
                  | inr None => NaN
                  end) _).
  by intros [].
Defined.

(** A Python [set] of objects that [json.load] can give as items of a
    list: strings, [None] and numbers.  A string is equal to no number and
    [None] to neither, so the set is held in three parts; of the numbers
    that are equal to each other a set holds one object, kept with its
    kind. *)
Record pyset : Type := mkSet {
  strs : gset string;
  has_none : bool;
  nums : gmap numval numkind
}.

(** [set()] *)
Definition set_empty : pyset := mkSet ∅ false ∅.

(** The set of the given strings. *)
Definition set_of_strs (hashes : gset string) : pyset := mkSet hashes false ∅.

(** [s.add(x)]: lists and dictionaries are unhashable, and an object equal
    to one that the set holds is not stored again. *)
Definition set_add (s : pyset) (x : json) : outcome pyset :=
  match x with
  | JStr h => Ret (mkSet (strs s ∪ {[h]}) (has_none s) (nums s))
  | JNull => Ret (mkSet (strs s) true (nums s))
  | JNum kind value =>
      Ret (mkSet (strs s) (has_none s)
             (match nums s !! value with
              | Some _ => nums s
              | None => <[value := kind]> (nums s)
              end))
  | JArr _ | JObj _ => Raise TypeError
  end.

(** The characters of a string, each as a string. *)
Fixpoint chars (s : string) : list string :=
  match s with
  | EmptyString => []
  | String c s' => String c EmptyString :: chars s'
  end.

(** [set(j)] for a loaded JSON value [j]: the items of a list, the
    characters of a string, the keys of a dictionary; nothing else can be
    iterated. *)
Definition set_of (j : json) : outcome pyset :=
  match j with
  | JArr items => ofold set_add set_empty items
  | JStr s => Ret (set_of_strs (list_to_set (chars s)))
  | JObj members => Ret (set_of_strs (list_to_set members.*1))
  | JNull | JNum _ _ => Raise TypeError
  end.

(** [list(s)], in the order in which the parts are listed here. *)
Definition list_of (s : pyset) : list json :=
  (JStr <$> elements (strs s))
    ++ (if has_none s then [JNull] else [])
    ++ ((λ p, JNum p.2 p.1) <$> map_to_list (nums s)).

(** [s.update(hashes)] for strings. *)
Definition set_update (s : pyset) (hashes : list string) : pyset :=
  mkSet (strs s ∪ list_to_set hashes) (has_none s) (nums s).

(** ** The retriever and its persisted set *)

(** The content of [processed_events_file]: no file, a file that is not
    JSON, or a file that holds a JSON value, which need not be the list of
    hashes that the program writes. *)
Inductive file : Type :=
| Missing
| NotJson
| Json (content : json).

(** The file as the program writes it for a set of hashes. *)
Definition Stored (hashes : list string) : file :=
  Json (JArr (JStr <$> hashes)).

(** The mutable part of an [EventRetriever] together with its file. *)
Record retriever : Type := mkRetriever {
  processed_events : pyset;
  disk : file
}.

(** [EventRetriever.__init__] leaves the file as it is. *)
Definition EventRetriever_init (d : file) : retriever :=
  mkRetriever set_empty d.

(** [EventRetriever.load_processed_events]: only [FileNotFoundError] is
    caught, and the set in memory is assigned only when [set(json.load(f))]
    has returned. *)
Definition load_processed_events (discard_processed_events : bool)
    (st : retriever) : outcome unit * retriever :=
  if discard_processed_events then
    match disk st with
    | Json content =>
        match set_of content with
        | Ret s => (Ret (), mkRetriever s (disk st))
        | Raise e => (Raise e, st)
        | Diverge => (Diverge, st)
        end
    | Missing => (Ret (), st)
    | NotJson => (Raise JSONDecodeError, st)
    end
  else (Ret (), st).

(** The events whose hash is not in the processed set. *)
Definition unprocessed (seen : pyset) (events : list Event) : list Event :=
  filter (λ e, txn_hash e ∉ strs seen) events.

(** [EventRetriever.fetch_events] *)
Definition fetch_events (fuel : nat) (txs : service)
    (contract_address : string) (discard_processed_events : bool)
    (action_type : action_arg) (user_wallet_address : option string)
    (st : retriever) : outcome (list Event) * retriever :=
  match load_processed_events discard_processed_events st with
  | (Ret _, st) =>
      let wasm_action := None in
      match
        (do txn_events <- _get_events fuel txs contract_address wasm_action;
         _filter_events txn_events action_type user_wallet_address)
      with
      | Ret events =>
          let events_to_send := unprocessed (processed_events st) events in
          if discard_processed_events then
            let seen :=
              set_update (processed_events st) (txn_hash <$> events_to_send) in
            (Ret events_to_send, mkRetriever seen (Json (JArr (list_of seen))))
          else (Ret events_to_send, st)
      | Raise e => (Raise e, st)
      | Diverge => (Diverge, st)
      end
  | (Raise e, st) => (Raise e, st)
  | (Diverge, st) => (Diverge, st)
  end.

(** ** The text of a log *)

(** How the protobuf library prints the repeated [events] field that the
    parser reads through [str(obj.events)]: the messages in text format,
    between brackets and separated by a comma and a blank.  A field that
    holds the empty string is not printed, and the characters of a string
    are escaped as [text_encoding.CEscape] of the Python implementation of
    the library does for [str(message)], byte by byte on the UTF-8
    encoding.  The text is given for any line end [nl] and indentation
    [ind]; the library prints a line feed and two blanks. *)
Module Wire.

Definition backslash : ascii := ascii_of_nat 92.

(** A byte as a backslash and three octal digits. *)
Definition octal (n : nat) : string :=
  String backslash
    (String (ascii_of_nat (48 + n / 64))
       (String (ascii_of_nat (48 + (n / 8) mod 8))
          (String (ascii_of_nat (48 + n mod 8)) EmptyString))).

Definition escape_byte (n : nat) : string :=
  if n =? 9 then String backslash "t"
  else if n =? 10 then String backslash "n"
  else if n =? 13 then String backslash "r"
  else if n =? 34 then String backslash (String (ascii_of_nat 34) EmptyString)
  else if n =? 39 then String backslash (String (ascii_of_nat 39) EmptyString)
  else if n =? 92 then String backslash (String backslash EmptyString)
  else if (n <? 32) || (126 <? n) then octal n
  else String (ascii_of_nat n) EmptyString.

(** The UTF-8 encoding of a character with a code below 256. *)
Definition utf8 (c : ascii) : list nat :=
  let n := nat_of_ascii c in
  if n <? 128 then [n] else [192 + n / 64; 128 + n mod 64].

Fixpoint escape (s : string) : string :=
  match s with
  | EmptyString => EmptyString
  | String c s' => foldr (λ b rest, escape_byte b +:+ rest) (escape s') (utf8 c)
  end.

(** A string field of a message. *)
Definition field (nl ind name value : string) : string :=
  match value with
  | EmptyString => EmptyString
  | String _ _ =>
      ind +:+ name +:+ ": " +:+ Py.dquote +:+ escape value +:+ Py.dquote +:+ nl
  end.

Definition attribute_with (nl ind : string) (kv : string * string) : string :=
  "attributes {" +:+ nl
    +:+ field nl ind "key" kv.1
    +:+ field nl ind "value" kv.2
    +:+ "}" +:+ nl.

Definition event_with (nl ind : string) (type : string)
    (attributes : list (string * string)) : string :=
  field nl EmptyString "type" type
    +:+ foldr (λ kv rest, attribute_with nl ind kv +:+ rest) EmptyString
          attributes.

Definition attribute (kv : string * string) : string :=
  attribute_with Py.newline "  " kv.

Definition event (type : string) (attributes : list (string * string))
  : string :=
  event_with Py.newline "  " type attributes.

Fixpoint join (l : list string) : string :=
  match l with
  | [] => EmptyString
  | [e] => e
  | e :: l' => e +:+ ", " +:+ join l'
  end.

Definition events (l : list string) : string := "[" +:+ join l +:+ "]".

End Wire.

(** ** Auxiliary notions and sample inputs *)




(** The ASCII letters and the slash, written out. *)
Definition letters_and_slash : list ascii :=
  list_ascii_of_string
    "ABCDEFGHIJKLMNOPQRSTUVWXYZabcdefghijklmnopqrstuvwxyz/".

(** The last character of a key, by which a suffixed key is told from the
    keys the parser writes itself. *)
Fixpoint last_char (s : string) : option ascii :=
  match s with
  | EmptyString => None
  | String c EmptyString => Some c
  | String _ s' => last_char s'
  end.

(** A bag that decodes and has neither [match_others] nor
    [match_others1]. *)
Definition bag_without_match_others : gmap string string :=
  <["id1" := "ABC/XYZ-17"]> {["TxnHash" := "H1"]}.

(** A bag lacks a required field when it has no transaction hash, or when
    what [id or id1] yields has no leading trade-pair run. *)
Definition lacks_id (bag : gmap string string) : Prop :=
  match Py.or (bag !! "id") (bag !! "id1") with
  | Some s => leading_run s = EmptyString
  | None => True
  end.

Definition malformed (bag : gmap string string) : Prop :=
  bag !! "TxnHash" = None ∨ lacks_id bag.

(** A log with two wasm events: the first has no [id], the second decodes. *)
Definition event_without_id : string :=
  Wire.event "wasm" [("_contract_address", "fetch1cw20")].

Definition event_with_id : string :=
  Wire.event "wasm" [("_contract_address", "fetch1cw20"); ("id", "ABC/XYZ-17")].

Definition resp_with_malformed : list tx :=
  [mkTx "H1" [Wire.events [event_without_id; event_with_id]]].

Definition resp_well_formed : list tx :=
  [mkTx "H1" [Wire.events [event_with_id]]].

(** The event that [event_with_id] decodes to in transaction [H1]. *)
Definition event_H1 : Event :=
  mkEvent (Some "ABC/XYZ-17") "H1" None None None None "ABC/XYZ" None None
    None None PyNone.

(** 250 records served in pages of 100. *)
Definition tx_number (i : nat) : tx :=
  mkTx (String (ascii_of_nat i) EmptyString) [].

Definition pages_250 : list (list tx) :=
  [tx_number <$> seq 0 100; tx_number <$> seq 100 100;
   tx_number <$> seq 200 50].

(** A service whose second answer is an empty page: two records out of a
    reported three, then nothing out of a reported two. *)
Definition shrinking_service : service :=
  λ _ offset,
    if offset =? 0 then mkResponse [tx_number 0; tx_number 1] 3
    else mkResponse [] 2.

(** A service that never sends the one record it reports. *)
Definition withholding_service : service := λ _ _, mkResponse [] 1.

(** A service that sends three records and reports two. *)
Definition generous_service : service :=
  λ _ _, mkResponse [tx_number 0; tx_number 1; tx_number 2] 2.

(** A service that sends two records of the three it reports and from
    then on nothing. *)
Definition stalling_service : remote_service :=
  λ call _ _,
    if call =? 0 then Ret (mkResponse [tx_number 0; tx_number 1] 3)
    else Ret (mkResponse [] 3).

(** A service that answers the first call with an empty page and the
    second call, at the same offset, with the record it reports. *)
Definition recovering_service : remote_service :=
  λ call _ _,
    if call =? 0 then Ret (mkResponse [] 1)
    else Ret (mkResponse [tx_number 0] 1).

(** The keys the parser writes by itself. *)
Definition parser_key (k : string) : Prop :=
  k = "TxnHash" ∨ k = "cw20_contract_address" ∨ k = "escrow_contract_address".

(** The shape of every key of a parsed bag: a key of the parser, or a key
    that ends with the suffix "1". *)
Definition stored_key (k : string) : Prop :=
  parser_key k ∨ last_char k = Some "1"%char.

(** The value of the last attribute of the list whose key is [k]. *)
Fixpoint last_value (k : string) (kvs : list (string * string))
  : option string :=
  match kvs with
  | [] => None
  | (k', v) :: rest =>
      match last_value k rest with
      | Some v' => Some v'
      | None => if decide (k' = k) then Some v else None
      end
  end.

(** An attribute list with a contract address first and last. *)
Definition attributes_two_contracts : list (string * string) :=
  [("_contract_address", "fetch1cw20"); ("action", "create");
   ("id", "ABC/XYZ-17"); ("_contract_address", "fetch1escrow")].

(** A key that no stored key can clash with: not a key of the parser and
    not ending with the suffix. *)
Definition plain_key (k : string) : Prop :=
  ¬ parser_key k ∧ last_char k ≠ Some "1"%char.

(** What lets an event through the action test: no action type was given,
    or one of those given is the value under [action] or [action1]. *)
Definition action_matches (action_type : action_arg)
    (bag : gmap string string) : Prop :=
  action_types_of action_type = []
  ∨ ∃ act, act ∈ action_types_of action_type
           ∧ (bag !! "action" = Some (ActionType_value act)
              ∨ bag !! "action1" = Some (ActionType_value act)).

(** What lets an event through the wallet test. *)
Definition wallet_matches (user_wallet_address : option string)
    (bag : gmap string string) : Prop :=
  match user_wallet_address with
  | None => True
  | Some addr => bag !! "from" = Some addr ∨ bag !! "from1" = Some addr
  end.

(** A bag whose only identifier is under the suffixed key. *)
Definition bag_with_id1 : gmap string string :=
  <["action1" := "create"]>
    (<["from1" := "fetch1alice"]>
       (<["id1" := "ABC/XYZ-17"]> {["TxnHash" := "H1"]})).

(** The bag of [attributes_two_contracts] in transaction [H1]. *)
Definition bag_two_contracts : gmap string string :=
  <["escrow_contract_address" := "fetch1escrow"]>
    (<["id1" := "ABC/XYZ-17"]>
       (<["action1" := "create"]>
          (<["cw20_contract_address" := "fetch1cw20"]>
             {["TxnHash" := "H1"]}))).

(** The event that [bag_two_contracts] decodes to. *)
Definition event_two_contracts : Event :=
  mkEvent (Some "ABC/XYZ-17") "H1" (Some "create") None None None
    "ABC/XYZ" None (Some "fetch1escrow") None None PyNone.

(** An attribute list with three [from] attributes, and its bag. *)
Definition attributes_repeated_from : list (string * string) :=
  [("from", "a"); ("to", "b"); ("from", "c"); ("from", "d")].

Definition bag_repeated_from : gmap string string :=
  <["from1" := "d"]> (<["to1" := "b"]> {["TxnHash" := "H1"]}).

(** The characters that frame keys and values in the text of a log, and the
    strings that hold none of them. *)
Definition punctuation (c : ascii) : bool :=
  match nat_of_ascii c with
  | 10 | 32 | 34 | 44 | 58 | 91 | 93 | 123 | 125 => true
  | _ => false
  end.

Fixpoint unpunctuated (s : string) : bool :=
  match s with
  | EmptyString => true
  | String c s' => negb (punctuation c) && unpunctuated s'
  end.

Definition unpunctuated_attributes (attributes : list (string * string)) : Prop :=
  Forall (λ kv, unpunctuated kv.1 = true ∧ unpunctuated kv.2 = true) attributes.

(** A pattern that cannot start inside an unpunctuated string followed by a
    quote: its first punctuation character is not a quote. *)
Fixpoint blocked (old : string) : bool :=
  match old with
  | EmptyString => false
  | String c old' =>
      if punctuation c then negb (bool_decide (c = ascii_of_nat 34))
      else blocked old'
  end.

(** The pattern [old] starts at no position of [t] in the text [t +:+ s]. *)
Fixpoint nomatch (old t s : string) : Prop :=
  match t with
  | EmptyString => True
  | String c t' =>
      String.prefix old (String c (t' +:+ s)) = false ∧ nomatch old t' s
  end.

(** The string without the occurrences of a character. *)
Fixpoint remove_char (x : ascii) (s : string) : string :=
  match s with
  | EmptyString => EmptyString
  | String c s' =>
      if bool_decide (c = x) then remove_char x s'
      else String c (remove_char x s')
  end.

Fixpoint has_char (x : ascii) (s : string) : bool :=
  match s with
  | EmptyString => false
  | String c s' => bool_decide (c = x) || has_char x s'
  end.

(** The text of an event with its type, keys and values between quotes as
    they are, without line ends and indentation. *)
Definition bare_attribute (kv : string * string) : string :=
  "attributes {key: " +:+ Py.dquote +:+ kv.1 +:+ Py.dquote
    +:+ "value: " +:+ Py.dquote +:+ kv.2 +:+ Py.dquote +:+ "}".

Definition bare_attributes (attributes : list (string * string))
  : string :=
  foldr (λ kv rest, bare_attribute kv +:+ rest) EmptyString attributes.

Definition bare_event (type : string)
    (attributes : list (string * string)) : string :=
  "type: " +:+ Py.dquote +:+ type +:+ Py.dquote
    +:+ bare_attributes attributes.

(** The text of a pair, as the split on the key marker cuts it out, and the
    text of the attributes once the word [attributes] and its brace are
    taken out. *)
Definition pair_text (kv : string * string) : string :=
  kv.1 +:+ Py.dquote +:+ "value: " +:+ Py.dquote +:+ kv.2 +:+ Py.dquote +:+ "}".

Definition keyed_attributes (attributes : list (string * string)) : string :=
  foldr (λ kv rest, "key: " +:+ Py.dquote +:+ pair_text kv +:+ rest)
    EmptyString attributes.

(** The text of attributes and events, with the line end [nl] and the
    indentation [ind] as the protobuf library prints them or as the parser
    has already taken them out, followed by [rest]. *)
Definition gen_attributes (nl ind : string)
    (attributes : list (string * string)) (rest : string) : string :=
  foldr (λ kv acc,
           "attributes {" +:+ nl +:+ ind +:+ "key: "
             +:+ String (ascii_of_nat 34)
                   (kv.1 +:+ String (ascii_of_nat 34)
                      (nl +:+ ind +:+ "value: "
                         +:+ String (ascii_of_nat 34)
                               (kv.2 +:+ String (ascii_of_nat 34)
                                  (nl +:+ "}" +:+ nl +:+ acc)))))
        rest attributes.

Definition gen_event (nl ind : string)
    (e : string * list (string * string)) (rest : string) : string :=
  "type: " +:+ String (ascii_of_nat 34)
                 (e.1 +:+ String (ascii_of_nat 34)
                    (nl +:+ gen_attributes nl ind e.2 rest)).

Fixpoint gen_events (nl ind : string)
    (es : list (string * list (string * string))) (rest : string) : string :=
  match es with
  | [] => rest
  | [e] => gen_event nl ind e rest
  | e :: es' => gen_event nl ind e (", " +:+ gen_events nl ind es' rest)
  end.

(** The events of a log have unpunctuated types, keys and values. *)
Definition unpunctuated_events (es : list (string * list (string * string))) : Prop :=
  Forall (λ e, unpunctuated e.1 = true ∧ unpunctuated_attributes e.2) es.

(** The texts [bare_event] of the events of a log, every one but the first
    after a blank. *)
Definition bare_pieces (es : list (string * list (string * string)))
  : list string :=
  match es with
  | [] => [EmptyString]
  | e :: es' =>
      bare_event e.1 e.2
        :: ((λ e', " " +:+ bare_event e'.1 e'.2) <$> es')
  end.

(** The characters that the protobuf library does not print as they are:
    the control characters, the quotes, the backslash and every character
    outside ASCII. *)
Definition escaped (c : ascii) : bool :=
  let n := nat_of_ascii c in
  (n <? 32) || (126 <? n) || (n =? 34) || (n =? 39) || (n =? 92).

Fixpoint plain (s : string) : bool :=
  match s with
  | EmptyString => true
  | String c s' => negb (escaped c) && negb (punctuation c) && plain s'
  end.

(** A clean string is printed, and printed as it is, and holds nothing that
    the parser takes for punctuation: it is not empty and none of its
    characters is escaped or is a punctuation character of the log text. *)
Definition clean (s : string) : bool :=
  match s with
  | EmptyString => false
  | String _ _ => plain s
  end.

Definition clean_attributes (attributes : list (string * string)) : Prop :=
  Forall (λ kv, clean kv.1 = true ∧ clean kv.2 = true) attributes.

(** The events of a log have clean types, keys and values. *)
Definition clean_events (es : list (string * list (string * string))) : Prop :=
  Forall (λ e, clean e.1 = true ∧ clean_attributes e.2) es.

(** The text that the protobuf library prints for an event, without the
    line ends and the indentation. *)
Definition stripped_event (type : string)
    (attributes : list (string * string)) : string :=
  Wire.event_with EmptyString EmptyString type attributes.

(** The pieces that the split on the comma leaves of the text of a log:
    every event but the first keeps the blank that followed its comma. *)
Definition event_pieces (es : list (string * list (string * string)))
  : list string :=
  match es with
  | [] => [EmptyString]
  | e :: es' =>
      stripped_event e.1 e.2
        :: ((λ e', " " +:+ stripped_event e'.1 e'.2) <$> es')
  end.

(** A wasm event with an attribute whose value is empty, and one with a
    quote in a value. *)
Definition event_empty_value : string :=
  Wire.event "wasm" [("id", "ABC/XYZ-17"); ("preferred_agent", EmptyString)].

Definition event_quoted_value : string :=
  Wire.event "wasm"
    [("id", "ABC/XYZ-17");
     ("from", String "o" (String (ascii_of_nat 39) "neil"))].

(** Two events of one log, the second not a wasm event. *)
Definition events_sample : list (string * list (string * string)) :=
  [("wasm", attributes_two_contracts);
   ("message", [("sender", "fetch1alice")])].

(** The body of the event loop on an event given by its type and its list
    of keys and values instead of its text. *)
Definition filter_structured (action_type : action_arg)
    (user_wallet_address : option string) (txhash : string)
    (filtered_data : list Event) (e : string * list (string * string))
  : outcome (list Event) :=
  if decide (e.1 = "wasm") then
    do result <- add_attributes {["TxnHash" := txhash]} e.2;
    if action_skips action_type result then Ret filtered_data
    else if wallet_skips user_wallet_address result then Ret filtered_data
    else do ev <- from_dict result; Ret (filtered_data ++ [ev])
  else Ret filtered_data.

(** The blank that the split on the comma leaves before an event. *)
Definition blank (first : bool) : string :=
  if first then EmptyString else " ".

(** * Properties *)

(** ** Outcomes and loops *)

Lemma ofold_app {A B} (f : A → B → outcome A) (a : A) (l1 l2 : list B) :
  ofold f a (l1 ++ l2) = do a' <- ofold f a l1; ofold f a' l2.
Proof.
  revert a. induction l1 as [|b l1 IH]; intros a; simpl; [done|].
  destruct (f a b); simpl; auto.
Qed.

(** ** Trade pairs *)

(** The class test accepts exactly the ASCII letters and the slash. *)
Lemma pair_char_letters (c : ascii) :
  pair_char c = bool_decide (c ∈ letters_and_slash).
Proof.
  destruct c as [b0 b1 b2 b3 b4 b5 b6 b7].
  destruct b0, b1, b2, b3, b4, b5, b6, b7; vm_compute; reflexivity.
Qed.

Lemma leading_run_split (s : string) :
  ∃ rest, s = leading_run s +:+ rest
    ∧ Forall (λ c, pair_char c = true) (list_ascii_of_string (leading_run s))
    ∧ (∀ d rest', rest = String d rest' → pair_char d = false).
Proof.
  induction s as [|c s (rest & Hs & Hall & Hrest)]; simpl.
  - exists EmptyString. split_and!; [done|constructor|intros; discriminate].
  - destruct (pair_char c) eqn:Hc.
    + exists rest. simpl. split_and!.
      * change (String c s = String c (leading_run s +:+ rest)).
        by rewrite <- Hs.
      * by constructor.
      * done.
    + exists (String c s). split_and!; [done|constructor|].
      intros d rest' [= -> ->]. done.
Qed.

(** C4: an id that begins with an ASCII letter or a slash yields its longest
    leading run of such characters; an id that begins with any other
    character makes the extraction raise (the failed match has no
    [group]). *)
Theorem extract_trade_pair_leading_run (c : ascii) (s : string) :
  (pair_char c = true →
     ∃ run rest,
       String c s = run +:+ rest
       ∧ run ≠ EmptyString
       ∧ Forall (λ d, pair_char d = true) (list_ascii_of_string run)
       ∧ (∀ d rest', rest = String d rest' → pair_char d = false)
       ∧ extract_trade_pair (Some (String c s)) = Ret run)
  ∧ (pair_char c = false →
       extract_trade_pair (Some (String c s)) = Raise AttributeError).
Proof.
  split; intros Hc.
  - destruct (leading_run_split (String c s)) as (rest & Hs & Hall & Hrest).
    exists (leading_run (String c s)), rest.
    split_and!; try done.
    + simpl. by rewrite Hc.
    + unfold extract_trade_pair, re_match_pair. simpl. by rewrite Hc.
  - unfold extract_trade_pair, re_match_pair. simpl. by rewrite Hc.
Qed.

Lemma extract_trade_pair_leading_run_witness :
  (∃ run rest,
     "ABC/XYZ-17" = run +:+ rest
     ∧ run ≠ EmptyString
     ∧ Forall (λ d, pair_char d = true) (list_ascii_of_string run)
     ∧ (∀ d rest', rest = String d rest' → pair_char d = false)
     ∧ extract_trade_pair (Some "ABC/XYZ-17") = Ret run)
  ∧ extract_trade_pair (Some "7ABC/XYZ") = Raise AttributeError.
Proof.
  split.
  - exact (proj1 (extract_trade_pair_leading_run "A" "BC/XYZ-17") eq_refl).
  - exact (proj2 (extract_trade_pair_leading_run "7" "ABC/XYZ") eq_refl).
Defined.

Example extract_trade_pair_sample :
  extract_trade_pair (Some "ABC/XYZ-17") = Ret "ABC/XYZ".
Proof. reflexivity. Qed.

(** ** Attribute bags *)

Lemma last_char_suffixed (key : string) (c : ascii) :
  last_char (key +:+ String c EmptyString) = Some c.
Proof.
  induction key as [|d key IH]; [done|].
  change (String d key +:+ String c EmptyString)
    with (String d (key +:+ String c EmptyString)).
  simpl. rewrite IH. by destruct key.
Qed.

Lemma suffixed_neq_self (key : string) : key ≠ key +:+ "1".
Proof.
  induction key as [|d key IH]; [done|].
  change (String d key +:+ "1") with (String d (key +:+ "1")).
  intros [= H]. by apply IH.
Qed.

(** A suffixed key never is one of the keys the parser writes itself. *)
Lemma suffixed_neq_fixed (key fixed : string) :
  last_char fixed ≠ Some "1"%char → key +:+ "1" ≠ fixed.
Proof. intros Hl <-. by rewrite last_char_suffixed in Hl. Qed.

Lemma size_insert_ge (m : gmap string string) (k v : string) :
  size m ≤ size (<[k := v]> m).
Proof.
  destruct (m !! k) eqn:Hk.
  - by erewrite map_size_insert_Some.
  - rewrite map_size_insert_None; [lia|done].
Qed.

(** A key that is not the contract-address key and not yet in the bag goes
    under the key suffixed with "1", the first time already. *)
Lemma add_attribute_fresh (result : gmap string string) (key value : string) :
  key ≠ "_contract_address" → result !! key = None →
  add_attribute result key value = Ret (<[key +:+ "1" := value]> result).
Proof.
  intros Hk Hr. unfold add_attribute.
  rewrite decide_False by done. by rewrite Hr.
Qed.

(** A contract address goes under the cw20 key only while the bag holds
    nothing but the transaction hash. *)
Lemma add_attribute_contract (result : gmap string string) (value : string) :
  add_attribute result "_contract_address" value =
    Ret (<[(if size result - 1 =? 0 then "cw20_contract_address"
            else "escrow_contract_address") := value]> result).
Proof. unfold add_attribute. by rewrite decide_True. Qed.

(** C1: two entries with the same key, other than the contract-address key,
    are both written under the key suffixed with "1": the bag has nothing
    under the unsuffixed key and only the second value under the suffixed
    one. *)
Theorem duplicate_key_overwrites (h key v1 v2 : string) :
  key ≠ "_contract_address" → key ≠ "TxnHash" →
  ∃ bag,
    add_attributes {["TxnHash" := h]} [(key, v1); (key, v2)] = Ret bag
    ∧ bag !! key = None
    ∧ bag !! (key +:+ "1") = Some v2
    ∧ ∀ k, bag !! k = Some v1 → v1 = v2 ∨ (k = "TxnHash" ∧ v1 = h).
Proof.
  intros Hc Ht.
  assert (Hn : key +:+ "1" ≠ key) by (intros H; by eapply suffixed_neq_self).
  exists (<[key +:+ "1" := v2]> {["TxnHash" := h]}).
  split_and!.
  - unfold add_attributes. simpl.
    rewrite add_attribute_fresh; [|done|by rewrite lookup_singleton_ne].
    simpl. rewrite add_attribute_fresh; [|done|].
    + simpl. by rewrite insert_insert_eq.
    + rewrite lookup_insert_ne by done. by rewrite lookup_singleton_ne.
  - rewrite lookup_insert_ne by done. by rewrite lookup_singleton_ne.
  - by rewrite lookup_insert_eq.
  - intros k. rewrite lookup_insert. case_decide.
    + intros [= ->]. by left.
    + rewrite lookup_singleton. case_decide; [|done].
      intros [= ->]. right. by subst.
Qed.

Lemma duplicate_key_overwrites_witness :
  ∃ bag,
    add_attributes {["TxnHash" := "H1"]}
      [("action", "create"); ("action", "transfer")] = Ret bag
    ∧ bag !! "action" = None
    ∧ bag !! "action1" = Some "transfer"
    ∧ ∀ k, bag !! k = Some "create" →
        "create" = "transfer" ∨ (k = "TxnHash" ∧ "create" = "H1").
Proof.
  apply (duplicate_key_overwrites "H1" "action" "create" "transfer");
    discriminate.
Defined.

(** The same through the text of a log: the bag read from an event with
    two [action] attributes. *)
Example duplicate_action_text :
  (λ o, match o with Ret bag => map_to_list bag | _ => [] end)
    (parse_bag "H1"
       (Wire.event "wasm" [("action", "create"); ("action", "transfer")]))
  = [("action1", "transfer"); ("TxnHash", "H1")].
Proof. vm_compute. reflexivity. Qed.

(** C2: when another key comes before the two contract addresses, the first
    address is not put under the cw20 key: both go under the escrow key,
    which keeps the second. *)
Theorem contract_address_after_other_key (h key v c1 c2 : string) :
  key ≠ "_contract_address" → key ≠ "TxnHash" →
  ∃ bag,
    add_attributes {["TxnHash" := h]}
      [(key, v); ("_contract_address", c1); ("_contract_address", c2)]
      = Ret bag
    ∧ bag !! "cw20_contract_address" = None
    ∧ bag !! "escrow_contract_address" = Some c2.
Proof.
  intros Hc Ht.
  set (r1 := <[key +:+ "1" := v]> ({["TxnHash" := h]} : gmap string string)).
  assert (Hs1 : size r1 = 2).
  { unfold r1. rewrite map_size_insert_None, map_size_singleton; [done|].
    rewrite lookup_singleton_ne; [done|].
    intros H; symmetry in H; revert H. by apply suffixed_neq_fixed. }
  exists (<["escrow_contract_address" := c2]>
            (<["escrow_contract_address" := c1]> r1)).
  split_and!.
  - unfold add_attributes. simpl.
    rewrite add_attribute_fresh; [|done|by rewrite lookup_singleton_ne].
    simpl. fold r1. rewrite Hs1. simpl.
    pose proof (size_insert_ge r1 "escrow_contract_address" c1) as Hge.
    destruct (size (<["escrow_contract_address" := c1]> r1)) as [|[|n]] eqn:Hn;
      [lia|lia|done].
  - rewrite !lookup_insert_ne by done. unfold r1.
    rewrite lookup_insert_ne by (by apply suffixed_neq_fixed).
    by rewrite lookup_singleton_ne.
  - by rewrite lookup_insert_eq.
Qed.

Lemma contract_address_after_other_key_witness :
  ∃ bag,
    add_attributes {["TxnHash" := "H1"]}
      [("action", "create"); ("_contract_address", "fetch1cw20");
       ("_contract_address", "fetch1escrow")] = Ret bag
    ∧ bag !! "cw20_contract_address" = None
    ∧ bag !! "escrow_contract_address" = Some "fetch1escrow".
Proof.
  apply (contract_address_after_other_key
           "H1" "action" "create" "fetch1cw20" "fetch1escrow");
    discriminate.
Defined.

Example contract_address_after_other_key_text :
  (λ o, match o with Ret bag => map_to_list bag | _ => [] end)
    (parse_bag "H1"
       (Wire.event "wasm"
          [("action", "create"); ("_contract_address", "fetch1cw20");
           ("_contract_address", "fetch1escrow")]))
  = [("escrow_contract_address", "fetch1escrow"); ("action1", "create");
     ("TxnHash", "H1")].
Proof. vm_compute. reflexivity. Qed.

(** Once the cw20 key is in a bag of two keys or more, no later attribute
    touches it. *)
Lemma add_attribute_keeps_cw20 (r r' : gmap string string) (k v c1 : string) :
  r !! "cw20_contract_address" = Some c1 → 2 ≤ size r →
  add_attribute r k v = Ret r' →
  r' !! "cw20_contract_address" = Some c1 ∧ 2 ≤ size r'.
Proof.
  intros Hc Hs. unfold add_attribute. case_decide as Hk.
  - destruct (size r - 1 =? 0) eqn:Hz; [apply Nat.eqb_eq in Hz; lia|].
    intros [= <-]. split.
    + by rewrite lookup_insert_ne.
    + pose proof (size_insert_ge r "escrow_contract_address" v). lia.
  - destruct (r !! k); [done|]. intros [= <-]. split.
    + rewrite lookup_insert_ne; [done|]. by apply suffixed_neq_fixed.
    + pose proof (size_insert_ge r (k +:+ "1") v). lia.
Qed.

Lemma add_attributes_keep_cw20 (kvs : list (string * string)) (c1 : string) :
  ∀ r r' : gmap string string,
    r !! "cw20_contract_address" = Some c1 → 2 ≤ size r →
    add_attributes r kvs = Ret r' →
    r' !! "cw20_contract_address" = Some c1 ∧ 2 ≤ size r'.
Proof.
  unfold add_attributes.
  induction kvs as [|[k v] kvs IH]; intros r r' Hc Hs; simpl.
  - by intros [= <-].
  - destruct (add_attribute r k v) as [r1| |] eqn:H1; simpl; [|done..].
    destruct (add_attribute_keeps_cw20 r r1 k v c1 Hc Hs H1) as [Hc1 Hs1].
    by apply IH.
Qed.

(** X1: where the mapping is positional: when the first attribute is a
    contract address, it stays under the cw20 key, and a contract address
    at the end of the list is the one under the escrow key, whatever comes
    between the two. *)
Lemma contract_address_first_positional (h c1 c2 : string)
    (mid : list (string * string)) (bag : gmap string string) :
  add_attributes {["TxnHash" := h]}
    (("_contract_address", c1) :: mid ++ [("_contract_address", c2)])
    = Ret bag →
  bag !! "cw20_contract_address" = Some c1
  ∧ bag !! "escrow_contract_address" = Some c2.
Proof.
  unfold add_attributes. simpl. rewrite map_size_singleton. simpl.
  rewrite ofold_app.
  set (r1 := <["cw20_contract_address" := c1]>
               ({["TxnHash" := h]} : gmap string string)).
  assert (Hc1 : r1 !! "cw20_contract_address" = Some c1)
    by apply lookup_insert_eq.
  assert (Hs1 : 2 ≤ size r1).
  { unfold r1. by rewrite map_size_insert_None, map_size_singleton. }
  destruct (ofold _ r1 mid) as [r2| |] eqn:Hmid; simpl; [|done..].
  destruct (add_attributes_keep_cw20 mid c1 r1 r2 Hc1 Hs1 Hmid) as [Hc2 Hs2].
  destruct (size r2 - 1 =? 0) eqn:Hz; [apply Nat.eqb_eq in Hz; lia|].
  intros [= <-]. split.
  - by rewrite lookup_insert_ne.
  - apply lookup_insert_eq.
Qed.

(** ** Decoding *)

(** The constructor's default applies when the argument is left out. *)
Lemma Event_init_default_match_others
    (i : option string) (h : string) (a f t m : option string) (p : string)
    (s e r g : option string) :
  match_others (Event_init i h a f t m p s e r g None) = PyBool true.
Proof. reflexivity. Qed.

(** C9: when neither [match_others] nor [match_others1] is in the bag, the
    decoder passes [None] to the constructor, and the decoded event holds
    [None], not [True]. *)
Theorem from_dict_match_others_absent (bag : gmap string string) (ev : Event) :
  bag !! "match_others" = None → bag !! "match_others1" = None →
  from_dict bag = Ret ev →
  match_others ev = PyNone ∧ match_others ev ≠ PyBool true.
Proof.
  intros H0 H1. unfold from_dict. rewrite H0, H1.
  destruct (getitem bag "TxnHash"); simpl; [|done..].
  destruct (extract_trade_pair _); simpl; [|done..].
  intros [= <-]. simpl. done.
Qed.

Lemma from_dict_match_others_absent_witness :
  ∃ ev, from_dict bag_without_match_others = Ret ev
        ∧ match_others ev = PyNone ∧ match_others ev ≠ PyBool true.
Proof.
  eexists. split; [vm_compute; reflexivity|].
  eapply (from_dict_match_others_absent bag_without_match_others);
    vm_compute; reflexivity.
Defined.

Lemma from_dict_malformed (bag : gmap string string) :
  malformed bag →
  from_dict bag = Raise (KeyError "TxnHash")
  ∨ from_dict bag = Raise TypeError
  ∨ from_dict bag = Raise AttributeError.
Proof.
  unfold malformed, lacks_id, from_dict, getitem.
  destruct (bag !! "TxnHash") as [h|]; [|by left].
  intros [?|H]; [done|]. simpl.
  destruct (Py.or (bag !! "id") (bag !! "id1")) as [s|]; simpl.
  - right; right. unfold re_match_pair. by rewrite H.
  - right; by left.
Qed.

Lemma from_dict_no_diverge (bag : gmap string string) :
  from_dict bag ≠ Diverge.
Proof.
  unfold from_dict, getitem.
  destruct (bag !! "TxnHash") as [h|]; simpl; [|done].
  destruct (Py.or (bag !! "id") (bag !! "id1")) as [i|]; simpl; [|done].
  by destruct (re_match_pair i).
Qed.

Lemma ofold_no_diverge {A B} (f : A → B → outcome A) (a : A) (l : list B) :
  (∀ a' b, f a' b ≠ Diverge) → ofold f a l ≠ Diverge.
Proof.
  intros Hf. revert a. induction l as [|b l IH]; intros a; simpl; [done|].
  specialize (Hf a b). destruct (f a b); simpl; [apply IH|done|done].
Qed.

(** A loop raises as soon as it holds an element on which its body raises
    from every state. *)
Lemma ofold_raises {A B} (f : A → B → outcome A) (a : A) (l : list B) (b : B) :
  b ∈ l →
  (∀ a', ∃ e, f a' b = Raise e) →
  (∀ a' b', f a' b' ≠ Diverge) →
  ∃ e, ofold f a l = Raise e.
Proof.
  intros Hin Hb Hf. revert a.
  induction l as [|b' l IH]; intros a; [by apply elem_of_nil in Hin|].
  apply elem_of_cons in Hin as [<-|Hin]; simpl.
  - destruct (Hb a) as [e ->]. by exists e.
  - specialize (Hf a b'). destruct (f a b') as [a'|e|]; simpl;
      [by apply IH|by exists e|done].
Qed.

Lemma add_attribute_no_diverge (result : gmap string string) (k v : string) :
  add_attribute result k v ≠ Diverge.
Proof.
  unfold add_attribute. case_decide; [done|]. by destruct (result !! k).
Qed.

Lemma attribute_step_no_diverge (result : gmap string string) (pair : string) :
  attribute_step result pair ≠ Diverge.
Proof.
  unfold attribute_step, Py.index.
  destruct (_ !! 0); simpl; [|done].
  destruct (_ !! 2); simpl; [|done].
  apply add_attribute_no_diverge.
Qed.

Lemma filter_event_no_diverge (a : action_arg) (w : option string)
    (h : string) (fd : list Event) (event : string) :
  filter_event a w h fd event ≠ Diverge.
Proof.
  unfold filter_event. destruct (Py.contains _ _); [|done].
  pose proof (ofold_no_diverge attribute_step {["TxnHash" := h]}
                (tail (Py.split ("key: " +:+ Py.dquote)
                   (Py.replace "attributes {" EmptyString
                      (Py.replace wasm_tag EmptyString event))))
                attribute_step_no_diverge) as Hp.
  fold (parse_bag h event) in Hp.
  destruct (parse_bag h event) as [bag| |]; simpl; [|done|done].
  destruct (action_skips a bag); [done|].
  destruct (wallet_skips w bag); [done|].
  pose proof (from_dict_no_diverge bag). by destruct (from_dict bag).
Qed.

Lemma filter_log_no_diverge (a : action_arg) (w : option string)
    (h : string) (fd : list Event) (events : string) :
  filter_log a w h fd events ≠ Diverge.
Proof. apply ofold_no_diverge. intros. apply filter_event_no_diverge. Qed.

Lemma filter_tx_no_diverge (a : action_arg) (w : option string)
    (fd : list Event) (t : tx) :
  filter_tx a w fd t ≠ Diverge.
Proof. apply ofold_no_diverge. intros. apply filter_log_no_diverge. Qed.

(** The event loop has no handler around the decoder. *)
Lemma filter_event_raises (a : action_arg) (w : option string) (h : string)
    (fd : list Event) (event : string) (bag : gmap string string) (e : exn) :
  Py.contains wasm_tag event = true →
  parse_bag h event = Ret bag →
  action_skips a bag = false → wallet_skips w bag = false →
  from_dict bag = Raise e →
  filter_event a w h fd event = Raise e.
Proof.
  intros Hw Hp Ha Hu Hd. unfold filter_event.
  rewrite Hw, Hp. simpl. by rewrite Ha, Hu, Hd.
Qed.

(** Taking the set of a loaded JSON value ends. *)
Lemma set_of_no_diverge (j : json) : set_of j ≠ Diverge.
Proof.
  destruct j as [|k v|s|items|members]; try done.
  apply ofold_no_diverge. by intros s [].
Qed.

(** C5, as stated, fails: the bag without [id] is not skipped.  The filter
    raises at it and the event of the second bag, which decodes on its own,
    is never returned; the same holds for the whole [fetch_events] call. *)
Lemma malformed_bag_not_skipped :
  (∃ ev, _filter_events resp_well_formed ActNone None = Ret [ev])
  ∧ _filter_events resp_with_malformed ActNone None = Raise TypeError
  ∧ (fetch_events 1 (paged_service [resp_with_malformed]) "fetch1escrow"
       false ActNone None (EventRetriever_init Missing)).1 = Raise TypeError.
Proof.
  split_and!.
  - eexists. vm_compute. reflexivity.
  - vm_compute. reflexivity.
  - vm_compute. reflexivity.
Qed.

(** C5, amended: decoding a bag that lacks a required field raises, and
    nothing catches it.  Whenever a response holds a wasm event that parses
    to such a bag and passes the two filters, [_filter_events] raises, and
    so does every [fetch_events] call that received this response: no event
    is returned, whatever the other bags are. *)
Theorem malformed_bag_aborts (resp : list tx) (a : action_arg)
    (w : option string) (t : tx) (events event : string)
    (bag : gmap string string) :
  t ∈ resp → events ∈ logs t → event ∈ json_events_of events →
  Py.contains wasm_tag event = true →
  parse_bag (txhash t) event = Ret bag →
  action_skips a bag = false → wallet_skips w bag = false →
  malformed bag →
  (∃ e, from_dict bag = Raise e)
  ∧ (∃ e, _filter_events resp a w = Raise e)
  ∧ (∀ fuel txs contract discard st,
       _get_events fuel txs contract None = Ret resp →
       ∃ e, (fetch_events fuel txs contract discard a w st).1 = Raise e).
Proof.
  intros Ht Hl He Hw Hp Ha Hu Hm.
  assert (Hd : ∃ e, from_dict bag = Raise e).
  { destruct (from_dict_malformed bag Hm) as [H|[H|H]]; eauto. }
  assert (Hf : ∃ e, _filter_events resp a w = Raise e).
  { destruct Hd as [e Hd].
    apply (ofold_raises _ _ _ t Ht); [|apply filter_tx_no_diverge].
    intros fd1.
    apply (ofold_raises _ _ _ events Hl); [|apply filter_log_no_diverge].
    intros fd2.
    apply (ofold_raises _ _ _ event He); [|apply filter_event_no_diverge].
    intros fd3. exists e. by eapply filter_event_raises. }
  split_and!; [done..|].
  intros fuel txs contract discard st Hq. destruct Hf as [e Hf].
  unfold fetch_events, load_processed_events.
  destruct discard;
    [destruct (disk st) as [| |content];
       [| |pose proof (set_of_no_diverge content);
           destruct (set_of content) as [s| |]]|];
    simpl; rewrite ?Hq; simpl; rewrite ?Hf; eauto; done.
Qed.

Lemma malformed_bag_aborts_witness :
  (∃ e, from_dict (<["cw20_contract_address" := "fetch1cw20"]>
                      {["TxnHash" := "H1"]}) = Raise e)
  ∧ (∃ e, _filter_events resp_with_malformed ActNone None = Raise e)
  ∧ (∀ fuel txs contract discard st,
       _get_events fuel txs contract None = Ret resp_with_malformed →
       ∃ e, (fetch_events fuel txs contract discard ActNone None st).1
            = Raise e).
Proof.
  apply (malformed_bag_aborts resp_with_malformed ActNone None
           (mkTx "H1" [Wire.events [event_without_id; event_with_id]])
           (Wire.events [event_without_id; event_with_id])
           (Py.replace "  " EmptyString
              (Py.replace Py.newline EmptyString event_without_id))).
  - apply list_elem_of_here.
  - apply list_elem_of_here.
  - vm_compute. apply list_elem_of_here.
  - vm_compute. reflexivity.
  - vm_compute. reflexivity.
  - reflexivity.
  - reflexivity.
  - right. vm_compute. exact I.
Defined.

(** ** The persisted set *)

Lemma set_add_strs (l : list string) :
  ∀ s, ofold set_add s (JStr <$> l)
       = Ret (mkSet (strs s ∪ list_to_set l) (has_none s) (nums s)).
Proof.
  induction l as [|h l IH]; intros s; cbn [fmap list_fmap ofold].
  - destruct s as [ss n ns]. cbn [strs has_none nums list_to_set foldr].
    by rewrite (right_id_L ∅ (∪)).
  - cbn [set_add obind]. rewrite IH. cbn [strs has_none nums list_to_set foldr].
    by rewrite (assoc_L (∪)).
Qed.

Lemma set_add_nums (l : list (numval * numkind)) :
  ∀ s, ofold set_add s ((λ p, JNum p.2 p.1) <$> l)
       = Ret (mkSet (strs s) (has_none s) (nums s ∪ list_to_map l)).
Proof.
  induction l as [|[v k] l IH]; intros s; cbn [fmap list_fmap ofold].
  - destruct s as [ss n ns]. cbn [strs has_none nums list_to_map foldr].
    by rewrite (right_id_L ∅ (∪)).
  - cbn [set_add obind fst snd]. rewrite IH. cbn [strs has_none nums].
    f_equal. f_equal. cbn [list_to_map foldr fst snd uncurry].
    destruct (nums s !! v) as [k'|] eqn:Hv.
    + apply map_eq. intros i. rewrite !lookup_union.
      destruct (decide (i = v)) as [->|Hne].
      * rewrite Hv. by rewrite !union_Some_l.
      * by rewrite lookup_insert_ne.
    + apply map_eq. intros i. rewrite !lookup_union.
      destruct (decide (i = v)) as [->|Hne].
      * rewrite Hv, !lookup_insert_eq. simpl.
        by destruct (list_to_map l !! v).
      * by rewrite !lookup_insert_ne.
Qed.

(** Writing a set and loading it again gives the set back. *)
Lemma set_of_list_of (s : pyset) : set_of (JArr (list_of s)) = Ret s.
Proof.
  unfold set_of, list_of, set_empty.
  rewrite ofold_app, set_add_strs. cbn [obind]. rewrite ofold_app.
  destruct s as [ss n ns]. cbn [strs has_none nums].
  assert (Hn : ofold set_add (mkSet (∅ ∪ list_to_set (elements ss)) false ∅)
                 (if n then [JNull] else [])
               = Ret (mkSet ss n ∅)).
  { rewrite (left_id_L ∅ (∪)), list_to_set_elements_L. by destruct n. }
  rewrite Hn. cbn [obind]. rewrite set_add_nums. cbn [strs has_none nums].
  by rewrite (left_id_L ∅ (∪)), list_to_map_to_list.
Qed.






(** Damaged files that are still JSON: a number, [null] and a list of a
    list make the load raise [TypeError]; an object and a string are loaded
    as the set of the keys and of the characters; and of [true], [1] and
    [1.0] the set keeps the one that comes first. *)
Example load_damaged_json :
  (load_processed_events true (EventRetriever_init (Json (JInt 123)))).1
    = Raise TypeError
  ∧ (load_processed_events true (EventRetriever_init (Json JNull))).1
    = Raise TypeError
  ∧ (load_processed_events true
       (EventRetriever_init (Json (JArr [JArr [JStr "H1"]])))).1
    = Raise TypeError
  ∧ load_processed_events true
      (EventRetriever_init (Json (JObj [("H1", JInt 1)])))
    = (Ret (), mkRetriever (set_of_strs {["H1"]})
                 (Json (JObj [("H1", JInt 1)])))
  ∧ load_processed_events true (EventRetriever_init (Json (JStr "H1")))
    = (Ret (), mkRetriever (set_of_strs {["H"; "1"]}) (Json (JStr "H1")))
  ∧ set_of (JArr [JBool true; JInt 1; JStr "H1"])
    = Ret (mkSet {["H1"]} false {[Fin 1%Qc := KBool]}).
Proof. split_and!; vm_compute; reflexivity. Qed.

(** ** Fetching events *)

Lemma unprocessed_none_seen (seen : pyset) (events : list Event) :
  (∀ e, e ∈ events → txn_hash e ∉ strs seen) →
  unprocessed seen events = events.
Proof.
  unfold unprocessed. induction events as [|e events IH]; intros H; [done|].
  rewrite filter_cons_True by (apply H; left).
  f_equal. apply IH. intros e' He'. apply H. by right.
Qed.

Lemma unprocessed_all_seen (seen : pyset) (events : list Event) :
  (∀ e, e ∈ events → txn_hash e ∈ strs seen) → unprocessed seen events = [].
Proof.
  unfold unprocessed. induction events as [|e events IH]; intros H; [done|].
  rewrite filter_cons_False by (intros Hn; apply Hn, H; left).
  apply IH. intros e' He'. apply H. by right.
Qed.

Lemma elem_of_unprocessed (seen : pyset) (events : list Event) (e : Event) :
  e ∈ unprocessed seen events ↔ e ∈ events ∧ txn_hash e ∉ strs seen.
Proof. unfold unprocessed. rewrite list_elem_of_filter. tauto. Qed.

Lemma set_update_nil (s : pyset) : set_update s [] = s.
Proof.
  destruct s as [ss n ns]. unfold set_update. cbn [strs has_none nums].
  cbn [list_to_set foldr]. by rewrite (right_id_L ∅ (∪)).
Qed.

(** What a call returns and leaves behind once the load, the query and the
    filter have gone through. *)
Lemma fetch_events_returns (fuel : nat) (txs : service) (contract : string)
    (discard : bool) (a : action_arg) (w : option string)
    (st st0 : retriever) (resp : list tx) (all : list Event) :
  load_processed_events discard st = (Ret (), st0) →
  _get_events fuel txs contract None = Ret resp →
  _filter_events resp a w = Ret all →
  fetch_events fuel txs contract discard a w st =
    (Ret (unprocessed (processed_events st0) all),
     if discard then
       let seen :=
         set_update (processed_events st0)
           (txn_hash <$> unprocessed (processed_events st0) all) in
       mkRetriever seen (Json (JArr (list_of seen)))
     else st0).
Proof.
  intros Hl Hq Hf. unfold fetch_events. rewrite Hl, Hq. simpl. rewrite Hf.
  by destruct discard.
Qed.

(** A call on the file that holds the set [seen], made from any set in
    memory, delivers none of the events whose hash is in [seen] and ends
    with [seen] in memory and in the file. *)
Lemma fetch_events_reload (fuel : nat) (txs : service) (contract : string)
    (a : action_arg) (w : option string) (seen any : pyset)
    (resp : list tx) (all : list Event) :
  _get_events fuel txs contract None = Ret resp →
  _filter_events resp a w = Ret all →
  (∀ e, e ∈ all → txn_hash e ∈ strs seen) →
  fetch_events fuel txs contract true a w
    (mkRetriever any (Json (JArr (list_of seen))))
  = (Ret [], mkRetriever seen (Json (JArr (list_of seen)))).
Proof.
  intros Hq Hf Hall.
  assert (Hl : load_processed_events true
                 (mkRetriever any (Json (JArr (list_of seen))))
               = (Ret (), mkRetriever seen (Json (JArr (list_of seen))))).
  { unfold load_processed_events. cbn [disk]. by rewrite set_of_list_of. }
  rewrite (fetch_events_returns fuel txs contract true a w _ _ resp all
             Hl Hq Hf).
  cbn [processed_events]. rewrite unprocessed_all_seen by done.
  cbn [fmap list_fmap]. by rewrite set_update_nil.
Qed.

(** C10: with dedup disabled the call leaves the retriever and its file as
    they are and its result does not depend on what the file holds, not
    even on a corrupt one; the events returned are those of the filter whose
    hash is not in the set in memory, which is all of them when that set
    holds no hash. *)
Theorem fetch_events_without_dedup (fuel : nat) (txs : service)
    (contract : string) (a : action_arg) (w : option string) (st : retriever) :
  (fetch_events fuel txs contract false a w st).2 = st
  ∧ (∀ d, (fetch_events fuel txs contract false a w
             (mkRetriever (processed_events st) d)).1
          = (fetch_events fuel txs contract false a w st).1)
  ∧ (∀ resp all,
       _get_events fuel txs contract None = Ret resp →
       _filter_events resp a w = Ret all →
       (fetch_events fuel txs contract false a w st).1
         = Ret (unprocessed (processed_events st) all)
       ∧ (∀ e, e ∈ unprocessed (processed_events st) all
               ↔ e ∈ all ∧ txn_hash e ∉ strs (processed_events st))
       ∧ (strs (processed_events st) = ∅ →
            (fetch_events fuel txs contract false a w st).1 = Ret all)).
Proof.
  split_and!.
  - unfold fetch_events. simpl.
    destruct (_get_events _ _ _ _) as [resp| |]; simpl; [|done..].
    by destruct (_filter_events _ _ _).
  - intros d. unfold fetch_events. simpl.
    destruct (_get_events _ _ _ _) as [resp| |]; simpl; [|done..].
    by destruct (_filter_events _ _ _).
  - intros resp all Hq Hf.
    rewrite (fetch_events_returns fuel txs contract false a w st st resp all)
      by done.
    split_and!; [done|apply elem_of_unprocessed|].
    intros He. simpl. f_equal. apply unprocessed_none_seen.
    intros e _. rewrite He. apply not_elem_of_empty.
Qed.

Lemma fetch_events_without_dedup_witness :
  fetch_events 1 (paged_service [resp_well_formed]) "fetch1escrow" false
    ActNone None (mkRetriever set_empty NotJson)
  = (Ret [event_H1], mkRetriever set_empty NotJson)
  ∧ fetch_events 1 (paged_service [resp_well_formed]) "fetch1escrow" false
      ActNone None (mkRetriever (set_of_strs {["H1"]}) NotJson)
    = (Ret [], mkRetriever (set_of_strs {["H1"]}) NotJson).
Proof.
  split.
  - apply injective_projections.
    + apply (proj2 (proj2 (fetch_events_without_dedup
               1 (paged_service [resp_well_formed]) "fetch1escrow"
               ActNone None (mkRetriever set_empty NotJson)))
               resp_well_formed [event_H1]);
        [vm_compute; reflexivity..|reflexivity].
    + apply (proj1 (fetch_events_without_dedup
               1 (paged_service [resp_well_formed]) "fetch1escrow"
               ActNone None (mkRetriever set_empty NotJson))).
  - vm_compute. reflexivity.
Defined.

(** C7: two calls with dedup enabled, one after the other, with the same
    arguments and the same service, on a store that holds none of the hashes
    of the matching events when the first call loads it: the first call
    returns all matching events; the second returns the empty list and
    leaves the store as the first call wrote it, and it does so on the file
    alone: whatever set the retriever that makes the second call has in
    memory, a new retriever included, the call reads the hashes back from
    the file that the first call wrote. *)
Theorem fetch_events_twice (fuel : nat) (txs : service) (contract : string)
    (a : action_arg) (w : option string) (st st0 : retriever)
    (resp : list tx) (all : list Event) :
  load_processed_events true st = (Ret (), st0) →
  _get_events fuel txs contract None = Ret resp →
  _filter_events resp a w = Ret all →
  (∀ e, e ∈ all → txn_hash e ∉ strs (processed_events st0)) →
  ∃ st1,
    fetch_events fuel txs contract true a w st = (Ret all, st1)
    ∧ fetch_events fuel txs contract true a w st1 = (Ret [], st1)
    ∧ ∀ seen, fetch_events fuel txs contract true a w
                (mkRetriever seen (disk st1)) = (Ret [], st1).
Proof.
  intros Hl Hq Hf Hnew.
  set (seen := set_update (processed_events st0) (txn_hash <$> all)).
  assert (Hall : ∀ e, e ∈ all → txn_hash e ∈ strs seen).
  { intros e He. unfold seen, set_update. cbn [strs].
    apply elem_of_union_r, elem_of_list_to_set, list_elem_of_fmap.
    by exists e. }
  exists (mkRetriever seen (Json (JArr (list_of seen)))).
  split_and!.
  - rewrite (fetch_events_returns fuel txs contract true a w st st0 resp all)
      by done.
    by rewrite unprocessed_none_seen.
  - by apply (fetch_events_reload fuel txs contract a w seen seen resp all).
  - intros any. cbn [disk].
    by apply (fetch_events_reload fuel txs contract a w seen any resp all).
Qed.

Lemma fetch_events_twice_witness :
  ∃ st1,
    fetch_events 1 (paged_service [resp_well_formed]) "fetch1escrow" true
      ActNone None (EventRetriever_init Missing) = (Ret [event_H1], st1)
    ∧ fetch_events 1 (paged_service [resp_well_formed]) "fetch1escrow" true
        ActNone None st1 = (Ret [], st1)
    ∧ ∀ seen, fetch_events 1 (paged_service [resp_well_formed]) "fetch1escrow"
                true ActNone None (mkRetriever seen (disk st1))
              = (Ret [], st1).
Proof.
  apply (fetch_events_twice 1 (paged_service [resp_well_formed])
           "fetch1escrow" ActNone None (EventRetriever_init Missing)
           (EventRetriever_init Missing) resp_well_formed [event_H1]).
  - reflexivity.
  - vm_compute. reflexivity.
  - vm_compute. reflexivity.
  - intros e _. simpl. apply not_elem_of_empty.
Defined.

(** The second call made by a new retriever on the file that the first call
    left. *)
Example fetch_events_twice_new_retriever :
  let first :=
    fetch_events 1 (paged_service [resp_well_formed]) "fetch1escrow" true
      ActNone None (EventRetriever_init Missing) in
  first.1 = Ret [event_H1]
  ∧ disk first.2 = Stored ["H1"]
  ∧ (fetch_events 1 (paged_service [resp_well_formed]) "fetch1escrow" true
       ActNone None (EventRetriever_init (disk first.2))).1 = Ret [].
Proof. vm_compute. split_and!; reflexivity. Qed.


(** A hash that the stored file already holds is not delivered again. *)
Example fetch_events_known_hash :
  (fetch_events 1 (paged_service [resp_well_formed]) "fetch1escrow" true
     ActNone None (EventRetriever_init (Stored ["H1"]))).1 = Ret [].
Proof. vm_compute. reflexivity. Qed.

(** ** Pagination *)

(** Dropping the record of the calls gives back the loop of the source. *)
Lemma query_loop_erase (txs : service) (queries : list string) (fuel : nat) :
  ∀ offset res calls,
    query_loop fuel txs queries offset res =
      do r <- query_loop_trace fuel txs queries offset res calls; Ret r.1.
Proof.
  induction fuel as [|fuel IH]; intros offset res calls; simpl; [done|].
  destruct (total _ <=? _); [done|]. apply IH.
Qed.

Lemma page_at_skip (before rest : list (list tx)) :
  Forall (λ p, p ≠ []) before →
  page_at (before ++ rest) (length (concat before)) = page_at rest 0.
Proof.
  induction 1 as [|d ds Hd _ IH]; [done|].
  simpl. rewrite length_app.
  destruct d as [|r d]; [done|]. simpl.
  replace (length d + length (concat ds) - length d)
    with (length (concat ds)) by lia.
  exact IH.
Qed.

Lemma page_offsets_length (pages : list (list tx)) :
  ∀ start, length (page_offsets start pages) = length pages.
Proof. induction pages as [|p ps IH]; intros start; simpl; auto. Qed.

(** Every request starts at the number of records of the pages before. *)
Lemma page_offsets_lookup (pages : list (list tx)) :
  ∀ start k,
    k < length pages →
    page_offsets start pages !! k
      = Some (start + length (concat (take k pages))).
Proof.
  induction pages as [|p ps IH]; intros start k Hk; simpl in *; [lia|].
  destruct k as [|k]; simpl.
  - f_equal. lia.
  - rewrite IH by lia. rewrite length_app. f_equal. lia.
Qed.

Lemma query_loop_trace_paged (pages : list (list tx)) (queries : list string) :
  Forall (λ p, p ≠ []) pages →
  ∀ rest before fuel calls,
    pages = before ++ rest → rest ≠ [] → length rest ≤ fuel →
    query_loop_trace fuel (paged_service pages) queries
      (length (concat before)) (concat before) calls
    = Ret (concat pages, calls ++ page_offsets (length (concat before)) rest).
Proof.
  intros Hne rest.
  induction rest as [|p rest IH]; intros before fuel calls Hp Hr Hf; [done|].
  destruct fuel as [|fuel]; simpl in Hf; [lia|].
  assert (Hdone : Forall (λ p, p ≠ []) before).
  { rewrite Hp in Hne. by apply Forall_app in Hne as [? _]. }
  assert (Hrest : Forall (λ p, p ≠ []) (p :: rest)).
  { rewrite Hp in Hne. by apply Forall_app in Hne as [_ ?]. }
  assert (Hpage : page_at pages (length (concat before)) = p).
  { rewrite Hp, page_at_skip by done. done. }
  simpl. rewrite Hpage.
  assert (Hc : concat pages = concat before ++ p ++ concat rest).
  { rewrite Hp, concat_app. done. }
  destruct rest as [|p' rest].
  - rewrite Hc. simpl. rewrite app_nil_r, length_app.
    rewrite Nat.leb_refl. done.
  - assert (Hp' : p' ≠ []).
    { apply Forall_cons in Hrest as [_ Hrest].
      by apply Forall_cons in Hrest as [? _]. }
    assert (Hlt : length (concat before) + length p < length (concat pages)).
    { rewrite Hc. simpl. rewrite !length_app.
      destruct p'; [done|]. simpl. lia. }
    apply Nat.leb_gt in Hlt. rewrite Hlt.
    replace (length (concat before) + length p)
      with (length (concat (before ++ [p])))
      by (rewrite concat_app, length_app; simpl; rewrite app_nil_r; done).
    replace (concat before ++ p) with (concat (before ++ [p]))
      by (rewrite concat_app; simpl; by rewrite app_nil_r).
    rewrite (IH (before ++ [p]) fuel (calls ++ [length (concat before)])).
    + simpl. rewrite <- !app_assoc. simpl. repeat f_equal.
      all: rewrite concat_app, length_app; simpl; rewrite app_nil_r; done.
    + rewrite Hp, <- app_assoc. done.
    + done.
    + simpl in *. lia.
Qed.

(** C3: against a service whose non-empty pages make up the total it
    reports, the query sends one request per page, each at the offset equal
    to the number of records received so far, and returns the pages
    concatenated in order. *)
Theorem paged_query_concat (pages : list (list tx)) (queries : list string)
    (fuel : nat) :
  pages ≠ [] → Forall (λ p, p ≠ []) pages → length pages ≤ fuel →
  query_trace fuel (paged_service pages) queries
    = Ret (concat pages, page_offsets 0 pages)
  ∧ _query_txs_events fuel (paged_service pages) queries = Ret (concat pages)
  ∧ length (page_offsets 0 pages) = length pages
  ∧ (∀ k, k < length pages →
       page_offsets 0 pages !! k = Some (length (concat (take k pages)))).
Proof.
  intros Hp Hne Hf.
  assert (Ht : query_trace fuel (paged_service pages) queries
               = Ret (concat pages, page_offsets 0 pages)).
  { unfold query_trace.
    exact (query_loop_trace_paged pages queries Hne pages [] fuel []
             eq_refl Hp Hf). }
  split_and!.
  - exact Ht.
  - unfold _query_txs_events. rewrite (query_loop_erase _ _ _ 0 [] []).
    unfold query_trace in Ht. by rewrite Ht.
  - apply page_offsets_length.
  - intros k Hk. by rewrite page_offsets_lookup.
Qed.

Lemma paged_query_concat_witness :
  query_trace 3 (paged_service pages_250) [] =
    Ret (tx_number <$> seq 0 250, [0; 100; 200])
  ∧ _query_txs_events 3 (paged_service pages_250) [] =
      Ret (tx_number <$> seq 0 250).
Proof.
  assert (Hne : Forall (λ p : list tx, p ≠ []) pages_250)
    by (repeat constructor; discriminate).
  destruct (paged_query_concat pages_250 [] 3) as (Ht & Hq & _ & _);
    [discriminate|exact Hne|simpl; lia|].
  split.
  - rewrite Ht. vm_compute. reflexivity.
  - rewrite Hq. vm_compute. reflexivity.
Defined.

(** The loop entered after [k] calls returns exactly at the first later
    call that reaches the total. *)
Lemma query_loop_returns (txs : service) (queries : list string) (fuel : nat) :
  ∀ k res,
    query_loop fuel txs queries (offset_after txs queries k)
      (records_after txs queries k) = Ret res
    ↔ ∃ n, k ≤ n < k + fuel
           ∧ reached txs queries n
           ∧ (∀ m, k ≤ m < n → ¬ reached txs queries m)
           ∧ res = records_after txs queries (S n).
Proof.
  induction fuel as [|fuel IH]; intros k res.
  - simpl. split; [done|]. intros (n & ? & _). lia.
  - simpl.
    change (offset_after txs queries k
              + length (tx_responses (txs queries (offset_after txs queries k))))
      with (offset_after txs queries (S k)).
    change (records_after txs queries k
              ++ tx_responses (txs queries (offset_after txs queries k)))
      with (records_after txs queries (S k)).
    destruct (Nat.leb_spec
                (total (txs queries (offset_after txs queries k)))
                (offset_after txs queries (S k))) as [Hle|Hgt].
    + split.
      * intros [= <-]. exists k. split_and!; [lia|lia|exact Hle| |done].
        intros m ?. lia.
      * intros (n & Hn & _ & Hfirst & ->).
        destruct (decide (n = k)) as [->|Hnk]; [done|].
        exfalso. apply (Hfirst k); [lia|exact Hle].
    + rewrite IH. split.
      * intros (n & Hn & Hr & Hfirst & ->). exists n.
        split_and!; [lia|lia|done| |done].
        intros m Hm. destruct (decide (m = k)) as [->|Hmk].
        -- unfold reached. lia.
        -- apply Hfirst. lia.
      * intros (n & Hn & Hr & Hfirst & ->).
        assert (n ≠ k) by (intros ->; unfold reached in Hr; lia).
        exists n. split_and!; [lia|lia|done| |done].
        intros m Hm. apply Hfirst. lia.
Qed.

(** C8: the query returns exactly when some call brings the number of
    records received up to the total reported by that call (the test
    [offset >= total]), and it returns at the first such call; a call that
    brings no record reaches the total exactly when the offset it was sent
    with already is at least that total, so an empty page neither stops the
    loop nor keeps it going; and for a call that does not bring the count
    past the total it reports, reaching the total is the equality of the
    two. *)
Theorem query_stops_when_total_reached (txs : service)
    (queries : list string) :
  (∀ fuel res,
     _query_txs_events fuel txs queries = Ret res
     ↔ ∃ n, n < fuel
            ∧ reached txs queries n
            ∧ (∀ m, m < n → ¬ reached txs queries m)
            ∧ res = records_after txs queries (S n))
  ∧ (∀ n, tx_responses (txs queries (offset_after txs queries n)) = [] →
          reached txs queries n
          ↔ total (txs queries (offset_after txs queries n))
              ≤ offset_after txs queries n)
  ∧ (∀ n, offset_after txs queries (S n)
            ≤ total (txs queries (offset_after txs queries n)) →
          reached txs queries n
          ↔ offset_after txs queries (S n)
              = total (txs queries (offset_after txs queries n))).
Proof.
  split_and!.
  - intros fuel res. unfold _query_txs_events.
    rewrite (query_loop_returns txs queries fuel 0 res). split.
    + intros (n & Hn & Hr & Hfirst & ->). exists n.
      split_and!; [lia|done| |done]. intros m Hm. apply Hfirst. lia.
    + intros (n & Hn & Hr & Hfirst & ->). exists n.
      split_and!; [lia|lia|done| |done]. intros m Hm. apply Hfirst. lia.
  - intros n Hempty. unfold reached. simpl. rewrite Hempty. simpl.
    by rewrite Nat.add_0_r.
  - intros n Hle. unfold reached. lia.
Qed.

Lemma query_stops_when_total_reached_witness :
  _query_txs_events 2 shrinking_service [] = Ret [tx_number 0; tx_number 1].
Proof.
  apply (proj1 (query_stops_when_total_reached shrinking_service [])).
  exists 1. split_and!.
  - lia.
  - unfold reached. simpl. lia.
  - intros m Hm. assert (m = 0) as -> by lia. unfold reached. simpl. lia.
  - reflexivity.
Defined.

(** An empty page does not end the loop while the total is not reached. *)
Lemma withholding_service_diverges (fuel : nat) (queries : list string) :
  _query_txs_events fuel withholding_service queries = Diverge.
Proof.
  unfold _query_txs_events. generalize (@nil tx) as res.
  induction fuel as [|fuel IH]; intros res; simpl; [done|]. apply IH.
Qed.

(** The loop also returns when a call brings more records than the total
    it reports. *)
Example query_returns_past_total :
  _query_txs_events 1 generous_service []
  = Ret [tx_number 0; tx_number 1; tx_number 2].
Proof. reflexivity. Qed.

(** ** Further properties of attribute bags *)

Lemma add_attributes_two_contracts :
  add_attributes {["TxnHash" := "H1"]} attributes_two_contracts
  = Ret bag_two_contracts.
Proof. vm_cast_no_check (eq_refl (Ret bag_two_contracts)). Qed.

Lemma parse_bag_two_contracts :
  parse_bag "H1" (Wire.event "wasm" attributes_two_contracts)
  = Ret bag_two_contracts.
Proof. vm_cast_no_check (eq_refl (Ret bag_two_contracts)). Qed.

Lemma contract_address_first_positional_witness :
  bag_two_contracts !! "cw20_contract_address" = Some "fetch1cw20"
  ∧ bag_two_contracts !! "escrow_contract_address" = Some "fetch1escrow".
Proof.
  apply (contract_address_first_positional "H1" "fetch1cw20" "fetch1escrow"
           [("action", "create"); ("id", "ABC/XYZ-17")]).
  exact add_attributes_two_contracts.
Defined.

Lemma suffixed_inj (k k' : string) : k +:+ "1" = k' +:+ "1" → k = k'.
Proof.
  revert k'. induction k as [|c k IH]; intros [|c' k'].
  - done.
  - change (String c' k' +:+ "1") with (String c' (k' +:+ "1")).
    intros [= _ H]. by destruct k'.
  - change (String c k +:+ "1") with (String c (k +:+ "1")).
    intros [= _ H]. by destruct k.
  - change (String c k +:+ "1") with (String c (k +:+ "1")).
    change (String c' k' +:+ "1") with (String c' (k' +:+ "1")).
    intros [= -> H]. f_equal. by apply IH.
Qed.

Lemma last_char_suffixed_one (k : string) : last_char (k +:+ "1") = Some "1"%char.
Proof. apply last_char_suffixed. Qed.

(** What one attribute does to a bag, when it does not raise. *)
Lemma add_attribute_inserts (r r' : gmap string string) (k v : string) :
  add_attribute r k v = Ret r' →
  ∃ k', r' = <[k' := v]> r
        ∧ ((k = "_contract_address"
            ∧ (k' = "cw20_contract_address" ∨ k' = "escrow_contract_address"))
           ∨ (k' = k +:+ "1" ∧ k ≠ "_contract_address" ∧ r !! k = None)).
Proof.
  unfold add_attribute. case_decide as Hk.
  - intros [= <-]. eexists. split; [done|]. left. split; [done|].
    destruct (size r - 1 =? 0); [by left|by right].
  - destruct (r !! k) eqn:Hr; [done|]. intros [= <-].
    exists (k +:+ "1"). split; [done|]. right. done.
Qed.

Lemma attribute_step_inserts (r r' : gmap string string) (pair : string) :
  attribute_step r pair = Ret r' →
  ∃ k v, add_attribute r k v = Ret r'.
Proof.
  unfold attribute_step, Py.index.
  destruct (_ !! 0) as [k|]; simpl; [|done].
  destruct (_ !! 2) as [v|]; simpl; [|done]. eauto.
Qed.

Lemma add_attribute_stored_keys (h : string) (r r' : gmap string string)
    (k v : string) :
  r !! "TxnHash" = Some h →
  (∀ k0, is_Some (r !! k0) → stored_key k0) →
  add_attribute r k v = Ret r' →
  r' !! "TxnHash" = Some h ∧ (∀ k0, is_Some (r' !! k0) → stored_key k0).
Proof.
  intros Hh Hkeys Hadd.
  destruct (add_attribute_inserts r r' k v Hadd) as (k' & -> & Hk').
  assert (Hs : stored_key k').
  { destruct Hk' as [[_ [-> | ->]] | [-> _]].
    - left. right. by left.
    - left. right. by right.
    - right. apply last_char_suffixed_one. }
  assert (Hne : k' ≠ "TxnHash").
  { destruct Hk' as [[_ [-> | ->]] | [-> _]]; [done|done|].
    by apply suffixed_neq_fixed. }
  split.
  - by rewrite lookup_insert_ne.
  - intros k0. rewrite lookup_insert. case_decide as Hk0; [by subst|].
    apply Hkeys.
Qed.

Lemma parse_bag_stored_keys (h : string) (pairs : list string) :
  ∀ r bag : gmap string string,
    r !! "TxnHash" = Some h →
    (∀ k0, is_Some (r !! k0) → stored_key k0) →
    ofold attribute_step r pairs = Ret bag →
    bag !! "TxnHash" = Some h ∧ (∀ k0, is_Some (bag !! k0) → stored_key k0).
Proof.
  induction pairs as [|pair pairs IH]; intros r bag Hh Hkeys; simpl.
  - intros [= <-]. done.
  - destruct (attribute_step r pair) as [r1| |] eqn:H1; simpl; [|done..].
    destruct (attribute_step_inserts r r1 pair H1) as (k & v & Hadd).
    destruct (add_attribute_stored_keys h r r1 k v Hh Hkeys Hadd).
    by apply IH.
Qed.

(** X2: whatever text a wasm event has, the bag the parser builds for it
    still holds the transaction hash under [TxnHash], and each of its keys
    is [TxnHash], one of the two contract-address keys, or a key that ends
    with the suffix "1": no attribute is ever stored under its own name. *)
Theorem parse_bag_keys (h event : string) (bag : gmap string string) :
  parse_bag h event = Ret bag →
  bag !! "TxnHash" = Some h
  ∧ (∀ k, is_Some (bag !! k) → stored_key k)
  ∧ bag !! "action" = None ∧ bag !! "from" = None ∧ bag !! "id" = None.
Proof.
  intros Hp. unfold parse_bag in Hp.
  apply (parse_bag_stored_keys h) in Hp as [Hh Hkeys].
  - assert (Hplain : ∀ k, ¬ stored_key k → bag !! k = None).
    { intros k Hk. destruct (bag !! k) eqn:Hb; [|done].
      exfalso. apply Hk, Hkeys. by rewrite Hb. }
    split_and!; [done|done|apply Hplain..];
      intros [[?|[?|?]]|?]; discriminate.
  - apply lookup_singleton_eq.
  - intros k0 [v Hv]. apply lookup_singleton_Some in Hv as [<- _].
    left. by left.
Qed.

Lemma parse_bag_keys_witness :
  bag_two_contracts !! "TxnHash" = Some "H1"
  ∧ (∀ k, is_Some (bag_two_contracts !! k) → stored_key k)
  ∧ bag_two_contracts !! "action" = None
  ∧ bag_two_contracts !! "from" = None
  ∧ bag_two_contracts !! "id" = None.
Proof.
  apply (parse_bag_keys "H1" (Wire.event "wasm" attributes_two_contracts)).
  exact parse_bag_two_contracts.
Defined.

Lemma add_attributes_last_value (kvs : list (string * string)) (k : string) :
  k ≠ "_contract_address" →
  ∀ r bag : gmap string string,
    add_attributes r kvs = Ret bag →
    bag !! (k +:+ "1")
      = match last_value k kvs with
        | Some v => Some v
        | None => r !! (k +:+ "1")
        end.
Proof.
  intros Hk. unfold add_attributes.
  induction kvs as [|[k' v'] kvs IH]; intros r bag; simpl.
  - by intros [= <-].
  - destruct (add_attribute r k' v') as [r1| |] eqn:H1; simpl; [|done..].
    intros Hrest. rewrite (IH r1 bag Hrest).
    destruct (last_value k kvs); [done|].
    destruct (add_attribute_inserts r r1 k' v' H1) as (k1 & -> & Hk1).
    case_decide as Hkk.
    + subst k'. destruct Hk1 as [[? _] | [-> _]]; [done|].
      apply lookup_insert_eq.
    + rewrite lookup_insert_ne; [done|].
      destruct Hk1 as [[_ [-> | ->]] | [-> _]].
      * intros H. symmetry in H. revert H. by apply suffixed_neq_fixed.
      * intros H. symmetry in H. revert H. by apply suffixed_neq_fixed.
      * intros H. apply Hkk. by apply suffixed_inj.
Qed.

(** X3: when the attribute loop goes through, what the bag holds under a
    key suffixed with "1" is the value of the last attribute with that key,
    however many there are; earlier values are overwritten. *)
Theorem repeated_key_last_wins (h k : string) (kvs : list (string * string))
    (bag : gmap string string) :
  k ≠ "_contract_address" →
  add_attributes {["TxnHash" := h]} kvs = Ret bag →
  bag !! (k +:+ "1") = last_value k kvs.
Proof.
  intros Hk Hadd.
  rewrite (add_attributes_last_value kvs k Hk _ bag Hadd).
  destruct (last_value k kvs); [done|].
  apply lookup_singleton_ne. intros H. symmetry in H. revert H.
  by apply suffixed_neq_fixed.
Qed.

Lemma repeated_key_last_wins_witness :
  bag_repeated_from !! "from1" = last_value "from" attributes_repeated_from.
Proof.
  apply (repeated_key_last_wins "H1" "from" attributes_repeated_from);
    [discriminate|vm_cast_no_check (eq_refl (Ret bag_repeated_from))].
Defined.

(** X4: an attribute whose key is already a key of the bag makes the loop
    raise [TypeError] (an integer is added to the stored string): so does an
    attribute named [TxnHash], and so does a key that follows the same key
    without its final "1". *)
Theorem attribute_key_clash_raises (h k v1 v2 : string)
    (rest : list (string * string)) :
  k ≠ "_contract_address" → k ≠ "TxnHash" →
  add_attributes {["TxnHash" := h]} (("TxnHash", v1) :: rest) = Raise TypeError
  ∧ add_attributes {["TxnHash" := h]} ((k, v1) :: (k +:+ "1", v2) :: rest)
    = Raise TypeError.
Proof.
  intros Hc Ht. split.
  - unfold add_attributes. simpl. unfold add_attribute.
    rewrite decide_False by done. by rewrite lookup_singleton_eq.
  - unfold add_attributes. simpl.
    rewrite add_attribute_fresh; [|done|by rewrite lookup_singleton_ne].
    simpl. unfold add_attribute.
    rewrite decide_False by (by apply suffixed_neq_fixed).
    by rewrite lookup_insert_eq.
Qed.

Lemma attribute_key_clash_raises_witness :
  add_attributes {["TxnHash" := "H1"]}
    [("TxnHash", "create"); ("id", "ABC/XYZ-17")] = Raise TypeError
  ∧ add_attributes {["TxnHash" := "H1"]}
      [("action", "create"); ("action1", "refund"); ("id", "ABC/XYZ-17")]
    = Raise TypeError.
Proof.
  apply (attribute_key_clash_raises "H1" "action" _ _ [("id", "ABC/XYZ-17")]);
    discriminate.
Defined.

Lemma add_attributes_plain (kvs : list (string * string)) :
  Forall (λ kv, kv.1 = "_contract_address" ∨ plain_key kv.1) kvs →
  ∀ r : gmap string string,
    (∀ k0, is_Some (r !! k0) → stored_key k0) →
    ∃ bag, add_attributes r kvs = Ret bag.
Proof.
  unfold add_attributes.
  induction 1 as [|[k v] kvs Hk _ IH]; intros r Hkeys; simpl in *.
  - by exists r.
  - assert (Hstep : ∃ r1, add_attribute r k v = Ret r1).
    { unfold add_attribute. case_decide; [by eexists|].
      destruct Hk as [?|[Hp Hl]]; [done|].
      destruct (r !! k) eqn:Hr; [|by eexists].
      exfalso. destruct (Hkeys k) as [?|?]; [by rewrite Hr|done..]. }
    destruct Hstep as [r1 H1]. rewrite H1. simpl. apply IH.
    destruct (add_attribute_inserts r r1 k v H1) as (k' & -> & Hk').
    intros k0. rewrite lookup_insert. case_decide as Hk0; [|apply Hkeys].
    intros _. subst k0. destruct Hk' as [[_ [-> | ->]] | [-> _]].
    + left. right. by left.
    + left. right. by right.
    + right. apply last_char_suffixed_one.
Qed.

(** The loop over the pairs is the loop over the keys and values that it
    cuts out of them. *)
Lemma attribute_steps_cut (pairs : list string) (kvs : list (string * string)) :
  Forall2 (λ pair kv, Py.split Py.dquote pair !! 0 = Some kv.1
                      ∧ Py.split Py.dquote pair !! 2 = Some kv.2) pairs kvs →
  ∀ r, ofold attribute_step r pairs = add_attributes r kvs.
Proof.
  unfold add_attributes.
  induction 1 as [|pair kv pairs kvs [Hk Hv] _ IH]; intros r; [done|].
  cbn [ofold]. unfold attribute_step at 1, Py.index. rewrite Hk, Hv.
  cbn [obind]. destruct (add_attribute r kv.1 kv.2); cbn [obind]; [|done..].
  apply IH.
Qed.

(** A pair with fewer than two quotes has no value to cut out. *)
Lemma attribute_step_short_pair (r : gmap string string) (pair : string) :
  Py.split Py.dquote pair !! 2 = None →
  attribute_step r pair = Raise IndexError.
Proof.
  intros H. unfold attribute_step, Py.index. rewrite H.
  by destruct (Py.split Py.dquote pair !! 0).
Qed.

(** X5: the attribute loop goes through, without raising, on every list of
    pairs that each have a third part when split at the quotes, so that a
    key and a value can be cut out of them, and whose keys are the
    contract-address key or keys that are none of the parser's own and do
    not end with "1"; the bag is the one that the assignments give on the
    keys and values cut out. *)
Theorem plain_keys_parse (h : string) (pairs : list string)
    (kvs : list (string * string)) :
  Forall2 (λ pair kv, Py.split Py.dquote pair !! 0 = Some kv.1
                      ∧ Py.split Py.dquote pair !! 2 = Some kv.2) pairs kvs →
  Forall (λ kv, kv.1 = "_contract_address" ∨ plain_key kv.1) kvs →
  ∃ bag, ofold attribute_step {["TxnHash" := h]} pairs = Ret bag
         ∧ add_attributes {["TxnHash" := h]} kvs = Ret bag.
Proof.
  intros Hcut Hkvs. rewrite (attribute_steps_cut pairs kvs Hcut).
  destruct (add_attributes_plain kvs Hkvs {["TxnHash" := h]}) as [bag Hbag];
    [|by exists bag].
  intros k0 [v Hv]. apply lookup_singleton_Some in Hv as [<- _].
  left. by left.
Qed.

Lemma plain_keys_parse_witness :
  ∃ bag, ofold attribute_step {["TxnHash" := "H1"]}
           (pair_text <$> attributes_two_contracts) = Ret bag
         ∧ add_attributes {["TxnHash" := "H1"]} attributes_two_contracts
           = Ret bag.
Proof.
  apply plain_keys_parse; unfold attributes_two_contracts.
  - cbn [fmap list_fmap].
    repeat (constructor; [split; vm_compute; reflexivity|]).
    constructor.
  - apply Forall_cons; split; [by left|].
    apply Forall_cons; split;
      [right; split; [intros [?|[?|?]]; discriminate|discriminate]|].
    apply Forall_cons; split;
      [right; split; [intros [?|[?|?]]; discriminate|discriminate]|].
    apply Forall_cons; split; [by left|].
    apply Forall_nil. exact I.
Defined.

(** ** Further properties of decoding *)

Lemma parse_bag_plain_absent (h event : string) (bag : gmap string string) :
  parse_bag h event = Ret bag →
  bag !! "TxnHash" = Some h ∧ (∀ k, ¬ stored_key k → bag !! k = None).
Proof.
  intros Hp. unfold parse_bag in Hp.
  apply (parse_bag_stored_keys h) in Hp as [Hh Hkeys].
  - split; [done|]. intros k Hk. destruct (bag !! k) eqn:Hb; [|done].
    exfalso. apply Hk, Hkeys. by rewrite Hb.
  - apply lookup_singleton_eq.
  - intros k0 [v Hv]. apply lookup_singleton_Some in Hv as [<- _].
    left. by left.
Qed.

Ltac not_stored := intros [[?|[?|?]]|?]; discriminate.

(** X6: decoding a bag that the parser built never fails on the hash, and
    every field read with [get(key) or get(key1)] comes from the suffixed
    key alone, since the parser never writes the unsuffixed one. *)
Theorem decode_parsed_bag (h event : string) (bag : gmap string string) :
  parse_bag h event = Ret bag →
  (∀ e, from_dict bag = Raise e → e = TypeError ∨ e = AttributeError)
  ∧ (∀ ev, from_dict bag = Ret ev →
       txn_hash ev = h
       ∧ id ev = bag !! "id1"
       ∧ action ev = bag !! "action1"
       ∧ from_address ev = bag !! "from1"
       ∧ to_address ev = bag !! "to1"
       ∧ amount ev = bag !! "amount1"
       ∧ sell_price ev = bag !! "sell_price1"
       ∧ escrow_address ev = bag !! "escrow_contract_address"
       ∧ remaining_amount ev = bag !! "remaining_amount1"
       ∧ preferred_agent ev = bag !! "preferred_agent1"
       ∧ match_others ev = pyval_of (bag !! "match_others1")).
Proof.
  intros Hp. apply parse_bag_plain_absent in Hp as [Hh Hplain].
  unfold from_dict, getitem. rewrite Hh. simpl.
  rewrite !(Hplain "action"), !(Hplain "from"), !(Hplain "to"),
    !(Hplain "amount"), !(Hplain "id"), !(Hplain "sell_price"),
    !(Hplain "remaining_amount"), !(Hplain "preferred_agent"),
    !(Hplain "match_others") by not_stored.
  unfold Py.or at 1 2 3 4 5 6 7 8 9. simpl.
  destruct (bag !! "id1") as [i|]; simpl.
  - destruct (re_match_pair i) as [run|]; simpl.
    + split; [done|]. intros ev [= <-]. simpl. done.
    + split; [|done]. intros e [= <-]. by right.
  - split; [|done]. intros e [= <-]. by left.
Qed.

Example decode_two_contracts :
  from_dict bag_two_contracts = Ret event_two_contracts.
Proof. vm_cast_no_check (eq_refl (Ret event_two_contracts)). Qed.

Lemma decode_parsed_bag_witness :
  txn_hash event_two_contracts = "H1"
  ∧ id event_two_contracts = bag_two_contracts !! "id1"
  ∧ action event_two_contracts = bag_two_contracts !! "action1"
  ∧ from_address event_two_contracts = bag_two_contracts !! "from1"
  ∧ to_address event_two_contracts = bag_two_contracts !! "to1"
  ∧ amount event_two_contracts = bag_two_contracts !! "amount1"
  ∧ sell_price event_two_contracts = bag_two_contracts !! "sell_price1"
  ∧ escrow_address event_two_contracts
    = bag_two_contracts !! "escrow_contract_address"
  ∧ remaining_amount event_two_contracts
    = bag_two_contracts !! "remaining_amount1"
  ∧ preferred_agent event_two_contracts
    = bag_two_contracts !! "preferred_agent1"
  ∧ match_others event_two_contracts
    = pyval_of (bag_two_contracts !! "match_others1").
Proof.
  exact (proj2 (decode_parsed_bag "H1"
                  (Wire.event "wasm" attributes_two_contracts)
                  bag_two_contracts parse_bag_two_contracts)
           event_two_contracts decode_two_contracts).
Defined.

Lemma leading_run_prefix (s : string) : String.prefix (leading_run s) s = true.
Proof.
  induction s as [|c s IH]; simpl; [done|].
  destruct (pair_char c); simpl; [|done].
  destruct (ascii_dec c c); [done|done].
Qed.

Lemma leading_run_idempotent (s : string) :
  leading_run (leading_run s) = leading_run s.
Proof.
  induction s as [|c s IH]; simpl; [done|].
  destruct (pair_char c) eqn:Hc; simpl; [|done]. by rewrite Hc, IH.
Qed.

(** X7: a bag decodes exactly when it has a transaction hash and an
    identifier with a leading trade-pair run; the decoded event then carries
    that hash and that identifier, and its trade pair is the non-empty
    leading run of the identifier, hence a prefix of it. *)
Theorem from_dict_decodes (bag : gmap string string) :
  ((∃ ev, from_dict bag = Ret ev) ↔ ¬ malformed bag)
  ∧ (∀ ev, from_dict bag = Ret ev →
       ∃ h i, bag !! "TxnHash" = Some h ∧ txn_hash ev = h
              ∧ Py.or (bag !! "id") (bag !! "id1") = Some i ∧ id ev = Some i
              ∧ trade_pair ev = leading_run i
              ∧ trade_pair ev ≠ EmptyString
              ∧ String.prefix (trade_pair ev) i = true).
Proof.
  unfold malformed, lacks_id, from_dict, getitem.
  destruct (bag !! "TxnHash") as [h|]; simpl.
  2:{ split; [|done]. split; [by intros [? ?]|]. intros H. exfalso. auto. }
  destruct (Py.or (bag !! "id") (bag !! "id1")) as [i|]; simpl.
  2:{ split; [|done]. split; [by intros [? ?]|]. intros H. exfalso. auto. }
  unfold re_match_pair.
  destruct (leading_run i) as [|c run] eqn:Hrun; simpl.
  - split; [|done]. split; [by intros [? ?]|]. intros H. exfalso. auto.
  - split.
    + split; [|by eexists]. intros _ [?|?]; discriminate.
    + intros ev [= <-]. exists h, i. simpl.
      split_and!; try done. rewrite <- Hrun. apply leading_run_prefix.
Qed.

Lemma from_dict_decodes_witness :
  ∃ ev h i,
    from_dict bag_with_id1 = Ret ev
    ∧ bag_with_id1 !! "TxnHash" = Some h ∧ txn_hash ev = h
    ∧ Py.or (bag_with_id1 !! "id") (bag_with_id1 !! "id1") = Some i
    ∧ id ev = Some i
    ∧ trade_pair ev = leading_run i
    ∧ trade_pair ev ≠ EmptyString
    ∧ String.prefix (trade_pair ev) i = true.
Proof.
  eexists.
  destruct (proj2 (from_dict_decodes bag_with_id1) _
              ltac:(vm_compute; reflexivity)) as (h & i & H).
  exists h, i. split; [vm_compute; reflexivity|]. exact H.
Defined.

(** X8: extracting the trade pair of a trade pair gives it back. *)
Theorem extract_trade_pair_idempotent (s run : string) :
  extract_trade_pair (Some s) = Ret run →
  extract_trade_pair (Some run) = Ret run.
Proof.
  unfold extract_trade_pair, re_match_pair.
  destruct (leading_run s) as [|c r] eqn:Hs; [done|]. intros [= <-].
  rewrite <- Hs, leading_run_idempotent, Hs. done.
Qed.

Lemma extract_trade_pair_idempotent_witness :
  extract_trade_pair (Some "ABC/XYZ") = Ret "ABC/XYZ".
Proof.
  apply (extract_trade_pair_idempotent "ABC/XYZ-17"). reflexivity.
Defined.

(** ** Further properties of the filters *)

Lemma neqb_false (v : option string) (s : string) :
  neqb v s = false ↔ v = Some s.
Proof.
  unfold neqb. rewrite negb_false_iff. apply bool_decide_eq_true.
Qed.

Lemma action_skips_matches (a : action_arg) (bag : gmap string string) :
  action_skips a bag = false ↔ action_matches a bag.
Proof.
  unfold action_matches.
  assert (Hall : ∀ l : list ActionType,
            forallb (λ act, neqb (bag !! "action") (ActionType_value act)
                            && neqb (bag !! "action1") (ActionType_value act)) l
              = false
            ↔ ∃ act, act ∈ l
                     ∧ (bag !! "action" = Some (ActionType_value act)
                        ∨ bag !! "action1" = Some (ActionType_value act))).
  { induction l as [|x l IH]; simpl.
    - split; [done|]. intros (act & Hin & _). by apply elem_of_nil in Hin.
    - rewrite andb_false_iff, andb_false_iff, !neqb_false, IH. split.
      + intros [Hx|(act & Hin & Hact)].
        * exists x. split; [left|done].
        * exists act. split; [by right|done].
      + intros (act & Hin & Hact).
        apply elem_of_cons in Hin as [->|Hin]; [by left|].
        right. by exists act. }
  destruct a as [|x|l]; simpl.
  - split; [by left|done].
  - rewrite andb_true_r, andb_false_iff, !neqb_false. split.
    + intros H. right. exists x. split; [left|done].
    + intros [?|(act & Hin & Hact)]; [done|].
      apply list_elem_of_singleton in Hin as ->. done.
  - rewrite andb_false_iff, negb_false_iff, bool_decide_eq_true, Hall. done.
Qed.

Lemma wallet_skips_matches (w : option string) (bag : gmap string string) :
  wallet_skips w bag = false ↔ wallet_matches w bag.
Proof.
  destruct w as [addr|]; simpl; [|done].
  by rewrite andb_false_iff, !neqb_false.
Qed.

(** X9: for a wasm event that parses to a bag, the event loop decodes the
    bag and appends the event exactly when the action test and the wallet
    test both let it through: no action type given (or an empty list), or
    one of them found under [action] or [action1]; no wallet given, or the
    wallet found under [from] or [from1].  Otherwise the loop goes on with
    the list unchanged and the bag is not decoded. *)
Theorem filter_event_keeps (a : action_arg) (w : option string)
    (h event : string) (fd : list Event) (bag : gmap string string) :
  Py.contains wasm_tag event = true →
  parse_bag h event = Ret bag →
  (action_matches a bag ∧ wallet_matches w bag →
     filter_event a w h fd event = do ev <- from_dict bag; Ret (fd ++ [ev]))
  ∧ (¬ (action_matches a bag ∧ wallet_matches w bag) →
       filter_event a w h fd event = Ret fd).
Proof.
  intros Hw Hp. unfold filter_event. rewrite Hw, Hp. simpl.
  pose proof (action_skips_matches a bag) as Ha.
  pose proof (wallet_skips_matches w bag) as Hu.
  destruct (action_skips a bag), (wallet_skips w bag); split; intros H;
    try done; try tauto.
  - destruct H as [H _]. apply Ha in H. done.
  - destruct H as [H _]. apply Ha in H. done.
  - destruct H as [_ H]. apply Hu in H. done.
Qed.

Lemma filter_event_keeps_witness :
  filter_event (ActList [REFUND; CREATE]) (Some "fetch1alice") "H1" []
    (Wire.event "wasm"
       [("action", "create"); ("from", "fetch1alice"); ("id", "ABC/XYZ-17")])
  = do ev <- from_dict bag_with_id1; Ret ([] ++ [ev]).
Proof.
  apply (proj1 (filter_event_keeps (ActList [REFUND; CREATE])
                  (Some "fetch1alice") "H1"
                  (Wire.event "wasm"
                     [("action", "create"); ("from", "fetch1alice");
                      ("id", "ABC/XYZ-17")])
                  [] bag_with_id1
                  ltac:(vm_cast_no_check (eq_refl true))
                  ltac:(vm_cast_no_check (eq_refl (Ret bag_with_id1))))).
  split.
  - right. exists CREATE. split; [right; left|]. right. reflexivity.
  - simpl. right. reflexivity.
Defined.

(** The loops only ever append to the list they are given. *)
Lemma ofold_appends {B} (f : list Event → B → outcome (list Event)) :
  (∀ fd b, f fd b = do es <- f [] b; Ret (fd ++ es)) →
  ∀ l fd, ofold f fd l = do es <- ofold f [] l; Ret (fd ++ es).
Proof.
  intros Hf l. induction l as [|b l IH]; intros fd; simpl.
  - by rewrite app_nil_r.
  - rewrite (Hf fd b). destruct (f [] b) as [es1| |]; simpl; [|done..].
    rewrite (IH (fd ++ es1)), (IH es1).
    destruct (ofold f [] l) as [es2| |]; simpl; [|done..].
    by rewrite app_assoc.
Qed.

Lemma filter_event_appends (a : action_arg) (w : option string) (h : string)
    (fd : list Event) (event : string) :
  filter_event a w h fd event
    = do es <- filter_event a w h [] event; Ret (fd ++ es).
Proof.
  unfold filter_event.
  destruct (Py.contains wasm_tag event); simpl; [|by rewrite app_nil_r].
  destruct (parse_bag h event) as [bag| |]; simpl; [|done..].
  destruct (action_skips a bag); simpl; [by rewrite app_nil_r|].
  destruct (wallet_skips w bag); simpl; [by rewrite app_nil_r|].
  by destruct (from_dict bag).
Qed.

Lemma filter_tx_appends (a : action_arg) (w : option string)
    (fd : list Event) (t : tx) :
  filter_tx a w fd t = do es <- filter_tx a w [] t; Ret (fd ++ es).
Proof.
  unfold filter_tx. apply ofold_appends. intros fd1 events.
  unfold filter_log. apply ofold_appends. intros fd2 event.
  apply filter_event_appends.
Qed.

(** X10: the filter handles the transactions one after the other and
    independently: on two lists of transactions put end to end it returns
    the events of the first followed by the events of the second, and it
    raises what the first list raises, else what the second raises. *)
Theorem filter_events_app (r1 r2 : list tx) (a : action_arg)
    (w : option string) :
  _filter_events (r1 ++ r2) a w
  = do e1 <- _filter_events r1 a w;
    do e2 <- _filter_events r2 a w;
    Ret (e1 ++ e2).
Proof.
  unfold _filter_events. rewrite ofold_app.
  destruct (ofold (filter_tx a w) [] r1) as [e1| |]; simpl; [|done..].
  apply ofold_appends. intros fd t. apply filter_tx_appends.
Qed.

Lemma ofold_ext {A B} (f g : A → B → outcome A) (a : A) (l : list B) :
  (∀ a' b, f a' b = g a' b) → ofold f a l = ofold g a l.
Proof.
  intros Hfg. revert a. induction l as [|b l IH]; intros a; simpl; [done|].
  rewrite Hfg. destruct (g a b); simpl; auto.
Qed.

(** X11: an empty list of action types filters nothing, like no action type
    at all, and a single action type filters like the list that holds only
    it. *)
Theorem filter_events_action_arg (resp : list tx) (w : option string)
    (act : ActionType) :
  _filter_events resp (ActList []) w = _filter_events resp ActNone w
  ∧ _filter_events resp (ActOne act) w = _filter_events resp (ActList [act]) w.
Proof.
  split; unfold _filter_events; apply ofold_ext; intros fd t;
    unfold filter_tx; apply ofold_ext; intros fd1 events;
    unfold filter_log; apply ofold_ext; intros fd2 event;
    unfold filter_event;
    destruct (Py.contains wasm_tag event); try done;
    destruct (parse_bag (txhash t) event); done.
Qed.

(** ** Further properties of the paginated query *)

Lemma query_loop_no_raise (txs : service) (queries : list string) (fuel : nat) :
  ∀ offset res e, query_loop fuel txs queries offset res ≠ Raise e.
Proof.
  induction fuel as [|fuel IH]; intros offset res e; simpl; [done|].
  destruct (total _ <=? _); [done|]. apply IH.
Qed.

Lemma records_after_length (txs : service) (queries : list string) (n : nat) :
  length (records_after txs queries n) = offset_after txs queries n.
Proof.
  induction n as [|n IH]; simpl; [done|]. by rewrite length_app, IH.
Qed.

(** Against a service that answers a request in the same way whenever it is
    sent: once a call below the reported total brings no record, the loop
    never returns. *)
Lemma empty_page_steady_diverges (txs : service)
    (queries : list string) (n : nat) :
  (∀ m, m ≤ n → ¬ reached txs queries m) →
  tx_responses (txs queries (offset_after txs queries n)) = [] →
  ∀ fuel, _query_txs_events fuel txs queries = Diverge.
Proof.
  intros Hbefore Hempty.
  assert (Hstay : ∀ m, n ≤ m →
            offset_after txs queries m = offset_after txs queries n).
  { intros m Hm. induction Hm as [|m Hm IH]; [done|].
    simpl. rewrite IH, Hempty. simpl. lia. }
  assert (Hnever : ∀ m, ¬ reached txs queries m).
  { intros m. destruct (decide (m ≤ n)) as [Hle|Hgt]; [by apply Hbefore|].
    intros Hr. apply (Hbefore n); [lia|].
    unfold reached in *.
    rewrite (Hstay (S n)) by lia.
    rewrite (Hstay m), (Hstay (S m)) in Hr by lia. done. }
  intros fuel. unfold _query_txs_events.
  destruct (query_loop fuel txs queries 0 []) as [res|e|] eqn:Hq; [| |done].
  - exfalso.
    apply (query_loop_returns txs queries fuel 0 res) in Hq
      as (m & _ & Hr & _).
    by apply (Hnever m).
  - exfalso. by apply query_loop_no_raise in Hq.
Qed.

(** The loop against a service that answers every call alike is the loop
    of the pure service. *)
Lemma query_loop_steady (txs : service) (queries : list string) (fuel : nat) :
  ∀ call offset res,
    query_loop_remote fuel (steady txs) queries call offset res
    = query_loop fuel txs queries offset res.
Proof.
  induction fuel as [|fuel IH]; intros call offset res; [done|].
  cbn [query_loop_remote query_loop steady obind].
  destruct (total _ <=? _); [done|]. apply IH.
Qed.

(** More calls do not change a result that fewer calls have given. *)
Lemma query_loop_remote_more (txs : remote_service) (queries : list string)
    (fuel : nat) :
  ∀ call offset res extra,
    query_loop_remote fuel txs queries call offset res ≠ Diverge →
    query_loop_remote (fuel + extra) txs queries call offset res
    = query_loop_remote fuel txs queries call offset res.
Proof.
  induction fuel as [|fuel IH]; intros call offset res extra H; [done|].
  cbn [Nat.add query_loop_remote] in *.
  destruct (txs call queries offset) as [tx_res| |]; cbn [obind] in *;
    [|done..].
  destruct (total tx_res <=? _); [done|]. by apply IH.
Qed.

(** The loop that has been given enough calls arrives at call number [n]
    with the offset and the records of [state_before]. *)
Lemma query_loop_remote_state (txs : remote_service) (queries : list string)
    (n : nat) :
  ∀ offset res fuel,
    state_before txs queries n = Some (offset, res) →
    query_loop_remote (n + fuel) txs queries 0 0 []
    = query_loop_remote fuel txs queries n offset res.
Proof.
  induction n as [|n IH]; intros offset res fuel H.
  - by injection H as <- <-.
  - cbn [state_before] in H.
    destruct (state_before txs queries n) as [[offset0 res0]|] eqn:Hn;
      [|done].
    destruct (txs n queries offset0) as [tx_res| |] eqn:Hcall; [|done..].
    destruct (total tx_res <=? offset0 + length (tx_responses tx_res))
      eqn:Hreached; [done|].
    injection H as <- <-.
    replace (S n + fuel) with (n + S fuel) by lia.
    rewrite (IH offset0 res0 (S fuel) eq_refl).
    cbn [query_loop_remote]. rewrite Hcall. cbn [obind].
    by rewrite Hreached.
Qed.

(** The loop entered at a call from which on the request at the current
    offset is answered with an empty page and a total above the offset. *)
Lemma query_loop_remote_stalls (txs : remote_service) (queries : list string)
    (offset : nat) (fuel : nat) :
  ∀ call res,
    (∀ m, call ≤ m →
          ∃ t, txs m queries offset = Ret (mkResponse [] t) ∧ offset < t) →
    query_loop_remote fuel txs queries call offset res = Diverge.
Proof.
  induction fuel as [|fuel IH]; intros call res H; [done|].
  cbn [query_loop_remote].
  destruct (H call) as (t & -> & Ht); [lia|].
  cbn [obind tx_responses total length]. rewrite Nat.add_0_r.
  apply Nat.leb_gt in Ht. rewrite Ht. apply IH.
  intros m Hm. apply H. lia.
Qed.

(** X12: the service being a remote party, its answer to a request may
    change from call to call.  If the loop arrives at some call with some
    offset and from that call on the service answers the request at this
    offset with an empty page and a total above the offset, then the offset
    stays where it is and the loop never returns, whatever number of calls
    it is given. *)
Theorem empty_page_below_total_diverges (txs : remote_service)
    (queries : list string) (n offset : nat) (res : list tx) :
  state_before txs queries n = Some (offset, res) →
  (∀ m, n ≤ m →
        ∃ t, txs m queries offset = Ret (mkResponse [] t) ∧ offset < t) →
  ∀ fuel, _query_txs_events_remote fuel txs queries = Diverge.
Proof.
  intros Hstate Hstall fuel. unfold _query_txs_events_remote.
  assert (Hmore : query_loop_remote (fuel + n) txs queries 0 0 [] = Diverge).
  { rewrite Nat.add_comm.
    rewrite (query_loop_remote_state txs queries n offset res fuel Hstate).
    by apply query_loop_remote_stalls. }
  destruct (query_loop_remote fuel txs queries 0 0 []) as [r|e|] eqn:Hq;
    [| |done].
  - rewrite query_loop_remote_more in Hmore by (by rewrite Hq).
    by rewrite Hq in Hmore.
  - rewrite query_loop_remote_more in Hmore by (by rewrite Hq).
    by rewrite Hq in Hmore.
Qed.

Lemma empty_page_below_total_diverges_witness :
  _query_txs_events_remote 5 stalling_service [] = Diverge.
Proof.
  apply (empty_page_below_total_diverges stalling_service [] 1 2
           [tx_number 0; tx_number 1]).
  - reflexivity.
  - intros m Hm. exists 3. destruct m as [|m]; [lia|]. split; [reflexivity|lia].
Defined.

(** Nothing of the kind holds of a single empty page: when the service
    answers the same request differently at the next call, the loop returns
    after an empty page below the total. *)
Example empty_page_then_records :
  state_before recovering_service [] 1 = Some (0, [])
  ∧ _query_txs_events_remote 2 recovering_service [] = Ret [tx_number 0].
Proof. split; reflexivity. Qed.

(** X13: when the query returns, it has made some number of calls within
    its fuel, the records it returns are those of all these calls in order,
    their number is the final offset, and that number is at least the total
    reported by the last call. *)
Theorem query_returns_reported_total (txs : service) (queries : list string)
    (fuel : nat) (res : list tx) :
  _query_txs_events fuel txs queries = Ret res →
  ∃ n, n < fuel
       ∧ res = records_after txs queries (S n)
       ∧ length res = offset_after txs queries (S n)
       ∧ total (txs queries (offset_after txs queries n)) ≤ length res.
Proof.
  unfold _query_txs_events. intros Hq.
  apply (query_loop_returns txs queries fuel 0 res) in Hq
    as (n & Hn & Hr & _ & ->).
  exists n. rewrite records_after_length. split_and!; [lia|done|done|exact Hr].
Qed.

Lemma query_returns_reported_total_witness :
  ∃ n, n < 3
       ∧ tx_number <$> seq 0 250
         = records_after (paged_service pages_250) [] (S n)
       ∧ length (tx_number <$> seq 0 250)
         = offset_after (paged_service pages_250) [] (S n)
       ∧ total (paged_service pages_250 []
                  (offset_after (paged_service pages_250) [] n))
         ≤ length (tx_number <$> seq 0 250).
Proof.
  apply (query_returns_reported_total (paged_service pages_250) [] 3).
  vm_compute. reflexivity.
Defined.

(** ** Further properties of fetching *)

(** X14: a call with dedup enabled that returns leaves the set in memory
    and the file in agreement: the file holds exactly the set, the set is
    what the load gave together with the hashes of the returned events, and
    none of the returned events had its hash in what the load gave. *)
Theorem fetch_events_dedup_state (fuel : nat) (txs : service)
    (contract : string) (a : action_arg) (w : option string)
    (st st1 : retriever) (evs : list Event) :
  fetch_events fuel txs contract true a w st = (Ret evs, st1) →
  ∃ st0,
    load_processed_events true st = (Ret (), st0)
    ∧ disk st1 = Json (JArr (list_of (processed_events st1)))
    ∧ set_of (JArr (list_of (processed_events st1)))
      = Ret (processed_events st1)
    ∧ (∀ x, x ∈ strs (processed_events st1)
            ↔ x ∈ strs (processed_events st0)
              ∨ ∃ e, e ∈ evs ∧ txn_hash e = x)
    ∧ has_none (processed_events st1) = has_none (processed_events st0)
    ∧ nums (processed_events st1) = nums (processed_events st0)
    ∧ (∀ e, e ∈ evs → txn_hash e ∉ strs (processed_events st0)).
Proof.
  unfold fetch_events.
  destruct (load_processed_events true st) as [[[]| |] st0] eqn:Hl;
    [|done..].
  destruct (_get_events fuel txs contract None) as [resp| |]; simpl;
    [|done..].
  destruct (_filter_events resp a w) as [all| |]; [|done..].
  intros [= <- <-]. exists st0. cbn [disk processed_events].
  split_and!; [done|done|apply set_of_list_of| |done|done|].
  - intros x. unfold set_update. cbn [strs].
    rewrite elem_of_union, elem_of_list_to_set, list_elem_of_fmap.
    split; intros [?|(e & ? & ?)]; auto; right; eauto.
  - intros e He. by apply elem_of_unprocessed in He as [_ ?].
Qed.

Lemma fetch_events_dedup_state_witness :
  ∃ evs st1 st0,
    fetch_events 1 (paged_service [resp_well_formed]) "fetch1escrow" true
      ActNone None (EventRetriever_init (Stored ["H0"])) = (Ret evs, st1)
    ∧ load_processed_events true (EventRetriever_init (Stored ["H0"]))
      = (Ret (), st0)
    ∧ disk st1 = Json (JArr (list_of (processed_events st1)))
    ∧ set_of (JArr (list_of (processed_events st1)))
      = Ret (processed_events st1)
    ∧ (∀ x, x ∈ strs (processed_events st1)
            ↔ x ∈ strs (processed_events st0)
              ∨ ∃ e, e ∈ evs ∧ txn_hash e = x)
    ∧ has_none (processed_events st1) = has_none (processed_events st0)
    ∧ nums (processed_events st1) = nums (processed_events st0)
    ∧ (∀ e, e ∈ evs → txn_hash e ∉ strs (processed_events st0)).
Proof.
  eexists. eexists.
  destruct (fetch_events_dedup_state 1 (paged_service [resp_well_formed])
              "fetch1escrow" ActNone None (EventRetriever_init (Stored ["H0"]))
              _ [event_H1] ltac:(vm_compute; reflexivity))
    as (st0 & Hst0).
  exists st0. split; [vm_compute; reflexivity|]. exact Hst0.
Defined.

(** X15: with dedup enabled and a file that is not JSON, the call raises
    the decoding error before it asks the service anything, whatever the
    service and the filters are, and leaves the retriever and the file as
    they were. *)
Theorem fetch_events_corrupt_store (fuel : nat) (txs : service)
    (contract : string) (a : action_arg) (w : option string)
    (st : retriever) :
  disk st = NotJson →
  fetch_events fuel txs contract true a w st = (Raise JSONDecodeError, st).
Proof.
  intros Hd. unfold fetch_events, load_processed_events. by rewrite Hd.
Qed.

Lemma fetch_events_corrupt_store_witness :
  fetch_events 0 withholding_service "fetch1escrow" true ActNone None
    (mkRetriever (set_of_strs {["H0"]}) NotJson)
  = (Raise JSONDecodeError, mkRetriever (set_of_strs {["H0"]}) NotJson).
Proof.
  apply (fetch_events_corrupt_store 0 withholding_service "fetch1escrow"
           ActNone None (mkRetriever (set_of_strs {["H0"]}) NotJson)).
  reflexivity.
Defined.

Lemma fetch_events_returns_or_keeps_file (fuel : nat) (txs : service)
    (contract : string) (discard : bool) (a : action_arg)
    (w : option string) (st : retriever) :
  disk (fetch_events fuel txs contract discard a w st).2 = disk st
  ∨ ∃ evs, (fetch_events fuel txs contract discard a w st).1 = Ret evs.
Proof.
  unfold fetch_events, load_processed_events.
  destruct discard;
    [destruct (disk st) as [| |content] eqn:Hd;
       [| |destruct (set_of content) as [s| |]]|];
    simpl; try (by left);
    (destruct (_get_events fuel txs contract None) as [resp| |]; simpl;
       [|by left..];
     destruct (_filter_events resp a w) as [all| |]; simpl;
       [right; by eexists|by left..]).
Qed.

(** X16: a call that does not return, because the load, the query, the
    parser or the decoder raised or because the query never ended, writes
    nothing: the file is as it was before the call. *)
Theorem fetch_events_failure_keeps_file (fuel : nat) (txs : service)
    (contract : string) (discard : bool) (a : action_arg)
    (w : option string) (st : retriever) :
  (∀ evs, (fetch_events fuel txs contract discard a w st).1 ≠ Ret evs) →
  disk (fetch_events fuel txs contract discard a w st).2 = disk st.
Proof.
  intros Hfail.
  destruct (fetch_events_returns_or_keeps_file fuel txs contract discard a w st)
    as [H|[evs H]]; [done|].
  by apply Hfail in H.
Qed.

Lemma fetch_events_failure_keeps_file_witness :
  disk (fetch_events 1 (paged_service [resp_with_malformed]) "fetch1escrow"
          true ActNone None (EventRetriever_init (Stored ["H0"]))).2
  = Stored ["H0"].
Proof.
  apply (fetch_events_failure_keeps_file 1 (paged_service [resp_with_malformed])
           "fetch1escrow" true ActNone None
           (EventRetriever_init (Stored ["H0"]))).
  intros evs. vm_compute. discriminate.
Defined.


(** ** The parser on the text of a log *)

Lemma append_String (c : ascii) (s t : string) :
  String c s +:+ t = String c (s +:+ t).
Proof. reflexivity. Qed.

Lemma append_Empty (t : string) : EmptyString +:+ t = t.
Proof. reflexivity. Qed.

Lemma append_assoc (s t u : string) : (s +:+ t) +:+ u = s +:+ (t +:+ u).
Proof.
  induction s as [|c s IH]; [done|].
  rewrite !append_String. by rewrite IH.
Qed.

Lemma append_Empty_r (s : string) : s +:+ EmptyString = s.
Proof.
  induction s as [|c s IH]; [done|]. rewrite append_String. by rewrite IH.
Qed.

Lemma prefix_append (p s : string) : String.prefix p (p +:+ s) = true.
Proof.
  induction p as [|c p IH]; [by destruct s|].
  rewrite append_String. simpl. by destruct (ascii_dec c c).
Qed.

Lemma replace_from_skip (old new t s : string) :
  Py.replace_from (String.length t) old new (t +:+ s)
  = Py.replace_from 0 old new s.
Proof.
  induction t as [|c t IH].
  - rewrite append_Empty. simpl. by destruct s.
  - rewrite append_String. simpl. exact IH.
Qed.

Lemma replace_match (c : ascii) (old new s : string) :
  Py.replace (String c old) new (String c old +:+ s)
  = new +:+ Py.replace (String c old) new s.
Proof.
  unfold Py.replace. rewrite append_String.
  change (Py.replace_from 0 (String c old) new (String c (old +:+ s)))
    with (if String.prefix (String c old) (String c (old +:+ s))
          then new +:+ Py.replace_from (String.length (String c old) - 1)
                         (String c old) new (old +:+ s)
          else String c (Py.replace_from 0 (String c old) new (old +:+ s))).
  rewrite <- append_String, prefix_append.
  simpl String.length.
  replace (S (String.length old) - 1) with (String.length old) by lia.
  by rewrite replace_from_skip.
Qed.

Lemma replace_nomatch (old new t s : string) :
  nomatch old t s →
  Py.replace old new (t +:+ s) = t +:+ Py.replace old new s.
Proof.
  unfold Py.replace. induction t as [|c t IH]; simpl; [done|].
  intros [Hp Ht]. rewrite !append_String.
  change (Py.replace_from 0 old new (String c (t +:+ s)))
    with (if String.prefix old (String c (t +:+ s))
          then new +:+ Py.replace_from (String.length old - 1) old new (t +:+ s)
          else String c (Py.replace_from 0 old new (t +:+ s))).
  rewrite Hp. f_equal. by apply IH.
Qed.

Lemma split_from_skip (sep cur t s : string) :
  Py.split_from (String.length t) sep cur (t +:+ s)
  = Py.split_from 0 sep cur s.
Proof.
  induction t as [|c t IH].
  - rewrite append_Empty. simpl. by destruct s.
  - rewrite append_String. simpl. exact IH.
Qed.

Lemma split_from_match (c : ascii) (sep cur s : string) :
  Py.split_from 0 (String c sep) cur (String c sep +:+ s)
  = cur :: Py.split_from 0 (String c sep) EmptyString s.
Proof.
  rewrite append_String.
  change (Py.split_from 0 (String c sep) cur (String c (sep +:+ s)))
    with (if String.prefix (String c sep) (String c (sep +:+ s))
          then cur :: Py.split_from (String.length (String c sep) - 1)
                        (String c sep) EmptyString (sep +:+ s)
          else Py.split_from 0 (String c sep)
                 (cur +:+ String c EmptyString) (sep +:+ s)).
  rewrite <- append_String, prefix_append.
  simpl String.length.
  replace (S (String.length sep) - 1) with (String.length sep) by lia.
  by rewrite split_from_skip.
Qed.

Lemma split_from_nomatch (sep t s : string) :
  nomatch sep t s →
  ∀ cur, Py.split_from 0 sep cur (t +:+ s)
         = Py.split_from 0 sep (cur +:+ t) s.
Proof.
  induction t as [|c t IH]; intros Ht cur.
  - by rewrite append_Empty, append_Empty_r.
  - destruct Ht as [Hp Ht]. rewrite append_String.
    change (Py.split_from 0 sep cur (String c (t +:+ s)))
      with (if String.prefix sep (String c (t +:+ s))
            then cur :: Py.split_from (String.length sep - 1) sep EmptyString
                          (t +:+ s)
            else Py.split_from 0 sep (cur +:+ String c EmptyString) (t +:+ s)).
    rewrite Hp, (IH Ht). by rewrite append_assoc.
Qed.

Lemma contains_nomatch (old t s : string) :
  nomatch old t s → Py.contains old (t +:+ s) = Py.contains old s.
Proof.
  induction t as [|c t IH]; [done|]. intros [Hp Ht].
  rewrite append_String.
  change (Py.contains old (String c (t +:+ s)))
    with (String.prefix old (String c (t +:+ s)) || Py.contains old (t +:+ s)).
  rewrite Hp. simpl. by apply IH.
Qed.

Lemma nomatch_append (old t1 t2 s : string) :
  nomatch old t1 (t2 +:+ s) → nomatch old t2 s →
  nomatch old (t1 +:+ t2) s.
Proof.
  induction t1 as [|c t1 IH]; [done|].
  intros [Hp H1] H2. rewrite append_String.
  split; [by rewrite append_assoc|]. by apply IH.
Qed.

(** A blocked pattern is no prefix of an unpunctuated string followed by a
    quote. *)
Lemma prefix_unpunctuated (t : string) :
  unpunctuated t = true →
  ∀ old s, blocked old = true →
    String.prefix old (t +:+ String (ascii_of_nat 34) s) = false.
Proof.
  induction t as [|c t IH]; intros Hc old s Hb.
  - rewrite append_Empty. destruct old as [|o old]; [done|]. simpl in *.
    destruct (ascii_dec o (ascii_of_nat 34)) as [->|Hne]; [|done].
    exfalso. by vm_compute in Hb.
  - simpl in Hc. apply andb_true_iff in Hc as [Hcc Hct].
    rewrite append_String. destruct old as [|o old]; [done|]. simpl in *.
    destruct (ascii_dec o c) as [->|Hne]; [|done].
    apply negb_true_iff in Hcc. rewrite Hcc in Hb. by apply IH.
Qed.

Lemma nomatch_unpunctuated (old t s : string) :
  blocked old = true → unpunctuated t = true →
  nomatch old t (String (ascii_of_nat 34) s).
Proof.
  intros Hb. induction t as [|c t IH]; [done|].
  intros Hc. cbn [nomatch]. split.
  - rewrite <- append_String. by apply prefix_unpunctuated.
  - apply IH. simpl in Hc. by apply andb_true_iff in Hc as [_ ?].
Qed.

(** One character of text that starts no match. *)
Lemma replace_char_step (old new : string) (c : ascii) (s : string) :
  String.prefix old (String c s) = false →
  Py.replace old new (String c s) = String c (Py.replace old new s).
Proof.
  intros Hp. unfold Py.replace.
  change (Py.replace_from 0 old new (String c s))
    with (if String.prefix old (String c s)
          then new +:+ Py.replace_from (String.length old - 1) old new s
          else String c (Py.replace_from 0 old new s)).
  by rewrite Hp.
Qed.

Lemma split_char_step (sep cur : string) (c : ascii) (s : string) :
  String.prefix sep (String c s) = false →
  Py.split_from 0 sep cur (String c s)
  = Py.split_from 0 sep (cur +:+ String c EmptyString) s.
Proof.
  intros Hp.
  change (Py.split_from 0 sep cur (String c s))
    with (if String.prefix sep (String c s)
          then cur :: Py.split_from (String.length sep - 1) sep EmptyString s
          else Py.split_from 0 sep (cur +:+ String c EmptyString) s).
  by rewrite Hp.
Qed.

(** An unpunctuated key or value, closed by its quote, starts no match. *)
Lemma replace_unpunctuated (old new t s : string) :
  blocked old = true → unpunctuated t = true →
  Py.replace old new (t +:+ String (ascii_of_nat 34) s)
  = t +:+ Py.replace old new (String (ascii_of_nat 34) s).
Proof. intros Hb Hc. apply replace_nomatch. by apply nomatch_unpunctuated. Qed.

Lemma split_unpunctuated (sep cur t s : string) :
  blocked sep = true → unpunctuated t = true →
  Py.split_from 0 sep cur (t +:+ String (ascii_of_nat 34) s)
  = Py.split_from 0 sep (cur +:+ t) (String (ascii_of_nat 34) s).
Proof. intros Hb Hc. apply split_from_nomatch. by apply nomatch_unpunctuated. Qed.

Lemma unpunctuated_no_quote (t s : string) :
  unpunctuated t = true → nomatch Py.dquote t s.
Proof.
  induction t as [|c t IH]; [done|]. intros Hc. simpl in Hc.
  apply andb_true_iff in Hc as [Hcc Hct]. cbn [nomatch].
  split; [|by apply IH].
  unfold Py.dquote. cbn [String.prefix].
  destruct (ascii_dec _ c) as [Heq|Hne]; [|done].
  subst c. by vm_compute in Hcc.
Qed.

Lemma split_quote_nomatch (cur t s : string) :
  nomatch Py.dquote t (String (ascii_of_nat 34) s) →
  Py.split_from 0 Py.dquote cur (t +:+ String (ascii_of_nat 34) s)
  = (cur +:+ t) :: Py.split_from 0 Py.dquote EmptyString s.
Proof.
  intros Hc. rewrite split_from_nomatch by done.
  exact (split_from_match (ascii_of_nat 34) EmptyString (cur +:+ t) s).
Qed.

Lemma split_quote_unpunctuated (cur t s : string) :
  unpunctuated t = true →
  Py.split_from 0 Py.dquote cur (t +:+ String (ascii_of_nat 34) s)
  = (cur +:+ t) :: Py.split_from 0 Py.dquote EmptyString s.
Proof. intros Hc. apply split_quote_nomatch. by apply unpunctuated_no_quote. Qed.

(** The pair that the split on the key marker cuts out for an attribute. *)
Lemma split_pair (k v : string) :
  unpunctuated k = true → unpunctuated v = true →
  Py.split Py.dquote
    (k +:+ String (ascii_of_nat 34)
       ("value: " +:+ String (ascii_of_nat 34)
          (v +:+ String (ascii_of_nat 34) "}")))
  = [k; "value: "; v; "}"].
Proof.
  intros Hk Hv. unfold Py.split.
  rewrite split_quote_unpunctuated by done.
  rewrite (split_quote_nomatch EmptyString "value: ")
    by (cbn [nomatch]; repeat split; reflexivity).
  rewrite split_quote_unpunctuated by done.
  reflexivity.
Qed.

Lemma attribute_step_pair (r : gmap string string) (k v : string) :
  unpunctuated k = true → unpunctuated v = true →
  attribute_step r
    (k +:+ String (ascii_of_nat 34)
       ("value: " +:+ String (ascii_of_nat 34)
          (v +:+ String (ascii_of_nat 34) "}")))
  = add_attribute r k v.
Proof.
  intros Hk Hv. unfold attribute_step. by rewrite split_pair.
Qed.

Ltac literal_steps :=
  rewrite ?append_String, ?append_Empty;
  repeat (rewrite replace_char_step by reflexivity).

Lemma bare_attributes_cons (kv : string * string)
    (attributes : list (string * string)) :
  bare_attributes (kv :: attributes)
  = "attributes {" +:+ "key: "
      +:+ String (ascii_of_nat 34)
            (kv.1 +:+ String (ascii_of_nat 34)
               ("value: " +:+ String (ascii_of_nat 34)
                  (kv.2 +:+ String (ascii_of_nat 34)
                     (String "}" (bare_attributes attributes))))).
Proof.
  unfold bare_attributes at 1. simpl foldr.
  fold (bare_attributes attributes).
  unfold bare_attribute. rewrite !append_assoc. reflexivity.
Qed.

Lemma keyed_attributes_cons (kv : string * string)
    (attributes : list (string * string)) :
  keyed_attributes (kv :: attributes)
  = "key: "
      +:+ String (ascii_of_nat 34)
            (kv.1 +:+ String (ascii_of_nat 34)
               ("value: " +:+ String (ascii_of_nat 34)
                  (kv.2 +:+ String (ascii_of_nat 34)
                     (String "}" (keyed_attributes attributes))))).
Proof.
  unfold keyed_attributes at 1. simpl foldr.
  fold (keyed_attributes attributes).
  unfold pair_text. rewrite !append_assoc. reflexivity.
Qed.

(** The wasm tag does not occur in the attributes. *)
Lemma replace_tag_attributes (attributes : list (string * string)) :
  unpunctuated_attributes attributes →
  Py.replace wasm_tag EmptyString (bare_attributes attributes)
  = bare_attributes attributes.
Proof.
  induction 1 as [|[k v] attributes [Hk Hv] _ IH]; [done|].
  rewrite bare_attributes_cons. simpl fst. simpl snd.
  literal_steps. rewrite replace_unpunctuated by done.
  literal_steps. rewrite replace_unpunctuated by done.
  literal_steps. by rewrite IH.
Qed.

(** Taking out the word [attributes] and its brace leaves the keyed pairs. *)
Lemma replace_brace_attributes (attributes : list (string * string)) :
  unpunctuated_attributes attributes →
  Py.replace "attributes {" EmptyString (bare_attributes attributes)
  = keyed_attributes attributes.
Proof.
  induction 1 as [|[k v] attributes [Hk Hv] _ IH]; [done|].
  rewrite bare_attributes_cons, keyed_attributes_cons.
  simpl fst. simpl snd.
  rewrite replace_match, append_Empty.
  literal_steps. rewrite replace_unpunctuated by done.
  literal_steps. rewrite replace_unpunctuated by done.
  literal_steps. by rewrite IH.
Qed.

Lemma nomatch_key_pair (kv : string * string) (rest : string) :
  unpunctuated kv.1 = true → unpunctuated kv.2 = true →
  nomatch ("key: " +:+ Py.dquote) (pair_text kv) rest.
Proof.
  destruct kv as [k v]. simpl. intros Hk Hv. unfold pair_text. simpl.
  apply nomatch_append;
    [apply (nomatch_unpunctuated _ k); [reflexivity|done]|].
  apply (nomatch_append _ Py.dquote);
    [cbn [nomatch]; repeat split; reflexivity|].
  apply (nomatch_append _ "value: ");
    [cbn [nomatch]; repeat split; reflexivity|].
  apply (nomatch_append _ Py.dquote);
    [cbn [nomatch]; repeat split; reflexivity|].
  apply nomatch_append;
    [apply (nomatch_unpunctuated _ v); [reflexivity|done]|].
  apply (nomatch_append _ Py.dquote);
    [cbn [nomatch]; repeat split; reflexivity|].
  cbn [nomatch]. repeat split; reflexivity.
Qed.

(** The split on the key marker cuts the keyed pairs apart. *)
Lemma split_keyed_attributes (attributes : list (string * string)) :
  unpunctuated_attributes attributes →
  ∀ cur, Py.split_from 0 ("key: " +:+ Py.dquote) cur
           (keyed_attributes attributes)
         = cur :: (pair_text <$> attributes).
Proof.
  induction 1 as [|kv attributes [Hk Hv] _ IH]; intros cur; [done|].
  unfold keyed_attributes. simpl foldr. fold (keyed_attributes attributes).
  change ("key: " +:+ Py.dquote +:+ pair_text kv +:+ keyed_attributes attributes)
    with (String "k" ("ey: " +:+ Py.dquote)
            +:+ (pair_text kv +:+ keyed_attributes attributes)).
  change ("key: " +:+ Py.dquote) with (String "k" ("ey: " +:+ Py.dquote)).
  rewrite split_from_match.
  rewrite split_from_nomatch by (by apply nomatch_key_pair).
  rewrite IH, append_Empty. done.
Qed.

Lemma attribute_steps_pairs (attributes : list (string * string)) :
  unpunctuated_attributes attributes →
  ∀ r, ofold attribute_step r (pair_text <$> attributes)
       = add_attributes r attributes.
Proof.
  unfold add_attributes.
  induction 1 as [|[k v] attributes [Hk Hv] _ IH]; intros r; [done|].
  simpl in *.
  change (pair_text (k, v))
    with (k +:+ String (ascii_of_nat 34)
            ("value: " +:+ String (ascii_of_nat 34)
               (v +:+ String (ascii_of_nat 34) "}"))).
  rewrite attribute_step_pair by done.
  destruct (add_attribute r k v); simpl; [apply IH|done..].
Qed.

Lemma contains_char_step (old : string) (c : ascii) (s : string) :
  String.prefix old (String c s) = false →
  Py.contains old (String c s) = Py.contains old s.
Proof.
  intros Hp.
  change (Py.contains old (String c s))
    with (String.prefix old (String c s) || Py.contains old s).
  by rewrite Hp.
Qed.

Lemma contains_unpunctuated (old t s : string) :
  blocked old = true → unpunctuated t = true →
  Py.contains old (t +:+ String (ascii_of_nat 34) s)
  = Py.contains old (String (ascii_of_nat 34) s).
Proof. intros Hb Hc. apply contains_nomatch. by apply nomatch_unpunctuated. Qed.

Ltac contains_steps :=
  rewrite ?append_String, ?append_Empty;
  repeat (rewrite contains_char_step by reflexivity).

Lemma contains_tag_attributes (attributes : list (string * string)) :
  unpunctuated_attributes attributes →
  Py.contains wasm_tag (bare_attributes attributes) = false.
Proof.
  induction 1 as [|[k v] attributes [Hk Hv] _ IH]; [done|].
  rewrite bare_attributes_cons. simpl fst. simpl snd.
  contains_steps. rewrite contains_unpunctuated by done.
  contains_steps. rewrite contains_unpunctuated by done.
  contains_steps. exact IH.
Qed.

(** An unpunctuated type closed by its quote matches the end of the tag only
    when it is the word of the tag. *)
Lemma prefix_type_name (w t s : string) :
  unpunctuated w = true → unpunctuated t = true →
  String.prefix (w +:+ Py.dquote) (t +:+ String (ascii_of_nat 34) s) = true →
  t = w.
Proof.
  revert t. induction w as [|a w IH]; intros t Hw Ht.
  - rewrite append_Empty. destruct t as [|b t]; [done|].
    rewrite append_String. unfold Py.dquote. cbn [String.prefix].
    destruct (ascii_dec _ b) as [Heq|Hne]; [|done].
    subst b. simpl in Ht. by vm_compute in Ht.
  - rewrite append_String. destruct t as [|b t].
    + rewrite append_Empty. cbn [String.prefix].
      destruct (ascii_dec a _) as [Heq|Hne]; [|done].
      subst a. simpl in Hw. by vm_compute in Hw.
    + rewrite append_String. cbn [String.prefix].
      destruct (ascii_dec a b) as [Heq|Hne]; [|done]. subst b.
      simpl in Hw, Ht.
      apply andb_true_iff in Hw as [_ Hw]. apply andb_true_iff in Ht as [_ Ht].
      intros Hp. f_equal. by apply IH.
Qed.

(** On the text [bare_event] of a wasm event with unpunctuated keys and
    values, with or without a blank before it, the parser finds the wasm tag
    and builds the bag that the attribute loop builds from the list of keys
    and values, in their order. *)
Lemma parse_bag_bare_event (h : string)
    (attributes : list (string * string)) :
  unpunctuated_attributes attributes →
  Py.contains wasm_tag (bare_event "wasm" attributes) = true
  ∧ Py.contains wasm_tag (" " +:+ bare_event "wasm" attributes) = true
  ∧ parse_bag h (bare_event "wasm" attributes)
    = add_attributes {["TxnHash" := h]} attributes
  ∧ parse_bag h (" " +:+ bare_event "wasm" attributes)
    = add_attributes {["TxnHash" := h]} attributes.
Proof.
  intros Hc.
  assert (He : bare_event "wasm" attributes
               = String "t" ("ype: " +:+ Py.dquote +:+ "wasm" +:+ Py.dquote)
                   +:+ bare_attributes attributes).
  { reflexivity. }
  assert (Ht : Py.contains wasm_tag (bare_event "wasm" attributes) = true).
  { rewrite He.
    change wasm_tag with (String "t" ("ype: " +:+ Py.dquote +:+ "wasm" +:+ Py.dquote)).
    destruct (bare_attributes attributes);
      unfold Py.contains; fold Py.contains; by rewrite ?prefix_append. }
  assert (Hr : Py.replace "attributes {" EmptyString
                 (Py.replace wasm_tag EmptyString
                    (bare_event "wasm" attributes))
               = keyed_attributes attributes).
  { rewrite He.
    change wasm_tag with (String "t" ("ype: " +:+ Py.dquote +:+ "wasm" +:+ Py.dquote)).
    rewrite replace_match, append_Empty.
    change (String "t" ("ype: " +:+ Py.dquote +:+ "wasm" +:+ Py.dquote))
      with wasm_tag.
    by rewrite replace_tag_attributes, replace_brace_attributes. }
  split_and!.
  - exact Ht.
  - change (" " +:+ bare_event "wasm" attributes)
      with (String " " (bare_event "wasm" attributes)).
    rewrite contains_char_step by reflexivity. exact Ht.
  - unfold parse_bag. rewrite Hr. unfold Py.split.
    rewrite split_keyed_attributes by done. simpl tail.
    by apply attribute_steps_pairs.
  - unfold parse_bag.
    change (" " +:+ bare_event "wasm" attributes)
      with (String " " (bare_event "wasm" attributes)).
    rewrite (replace_char_step wasm_tag) by reflexivity.
    rewrite (replace_char_step "attributes {") by reflexivity.
    rewrite Hr. unfold Py.split.
    rewrite split_char_step by reflexivity.
    rewrite split_keyed_attributes by done. simpl tail.
    by apply attribute_steps_pairs.
Qed.

(** *** Single characters *)

Lemma prefix_Empty (s : string) : String.prefix EmptyString s = true.
Proof. by destruct s. Qed.

Lemma prefix_single (x c : ascii) (s : string) :
  String.prefix (String x EmptyString) (String c s) = bool_decide (c = x).
Proof.
  cbn [String.prefix]. rewrite prefix_Empty.
  destruct (ascii_dec x c) as [->|Hne].
  - by rewrite bool_decide_eq_true_2.
  - rewrite bool_decide_eq_false_2; [done|]. by intros ->.
Qed.

Lemma replace_single (x : ascii) (s : string) :
  Py.replace (String x EmptyString) EmptyString s = remove_char x s.
Proof.
  unfold Py.replace. induction s as [|c s IH]; [done|].
  change (Py.replace_from 0 (String x EmptyString) EmptyString (String c s))
    with (if String.prefix (String x EmptyString) (String c s)
          then EmptyString
                 +:+ Py.replace_from 0 (String x EmptyString) EmptyString s
          else String c
                 (Py.replace_from 0 (String x EmptyString) EmptyString s)).
  rewrite prefix_single, IH. simpl. by destruct (bool_decide (c = x)).
Qed.

Lemma remove_char_append (x : ascii) (s t : string) :
  remove_char x (s +:+ t) = remove_char x s +:+ remove_char x t.
Proof.
  induction s as [|c s IH]; [done|].
  rewrite append_String. simpl. rewrite IH.
  by destruct (bool_decide (c = x)).
Qed.

Lemma remove_char_unpunctuated (x : ascii) (t : string) :
  punctuation x = true → unpunctuated t = true → remove_char x t = t.
Proof.
  intros Hx. induction t as [|c t IH]; [done|]. simpl. intros Hc.
  apply andb_true_iff in Hc as [Hcc Hct].
  rewrite bool_decide_eq_false_2.
  - by rewrite IH.
  - intros ->. by rewrite Hx in Hcc.
Qed.

Lemma has_char_append (x : ascii) (s t : string) :
  has_char x (s +:+ t) = has_char x s || has_char x t.
Proof.
  induction s as [|c s IH]; [done|].
  rewrite append_String. simpl. rewrite IH. by rewrite orb_assoc.
Qed.

Lemma has_char_unpunctuated (x : ascii) (t : string) :
  punctuation x = true → unpunctuated t = true → has_char x t = false.
Proof.
  intros Hx. induction t as [|c t IH]; [done|]. simpl. intros Hc.
  apply andb_true_iff in Hc as [Hcc Hct].
  rewrite bool_decide_eq_false_2.
  - by rewrite IH.
  - intros ->. by rewrite Hx in Hcc.
Qed.

Lemma split_single_end (x : ascii) (t cur : string) :
  has_char x t = false →
  Py.split_from 0 (String x EmptyString) cur t = [cur +:+ t].
Proof.
  revert cur. induction t as [|c t IH]; intros cur Ht.
  - by rewrite append_Empty_r.
  - simpl in Ht. apply orb_false_iff in Ht as [Hc Ht].
    rewrite split_char_step by (by rewrite prefix_single).
    rewrite IH by done. by rewrite append_assoc.
Qed.

Lemma split_single (x : ascii) (t s cur : string) :
  has_char x t = false →
  Py.split_from 0 (String x EmptyString) cur (t +:+ String x s)
  = (cur +:+ t) :: Py.split_from 0 (String x EmptyString) EmptyString s.
Proof.
  revert cur. induction t as [|c t IH]; intros cur Ht.
  - rewrite append_Empty, append_Empty_r.
    exact (split_from_match x EmptyString cur s).
  - simpl in Ht. apply orb_false_iff in Ht as [Hc Ht].
    rewrite append_String.
    rewrite split_char_step by (by rewrite prefix_single).
    rewrite IH by done. by rewrite append_assoc.
Qed.

(** *** The four replacements on the text of a log *)

Lemma replace_single_match (x : ascii) (s : string) :
  Py.replace (String x EmptyString) EmptyString (String x s)
  = Py.replace (String x EmptyString) EmptyString s.
Proof. exact (replace_match x EmptyString EmptyString s). Qed.

Lemma replace_indent_match (s : string) :
  Py.replace "  " EmptyString (String " " (String " " s))
  = Py.replace "  " EmptyString s.
Proof. exact (replace_match " " " " EmptyString s). Qed.

Ltac replace_steps :=
  rewrite ?append_String, ?append_Empty;
  repeat first
    [ rewrite replace_char_step by reflexivity
    | rewrite replace_single_match
    | rewrite replace_indent_match ].

Lemma gen_attributes_cons (nl ind : string) (kv : string * string)
    (attributes : list (string * string)) (rest : string) :
  gen_attributes nl ind (kv :: attributes) rest
  = "attributes {" +:+ nl +:+ ind +:+ "key: "
      +:+ String (ascii_of_nat 34)
            (kv.1 +:+ String (ascii_of_nat 34)
               (nl +:+ ind +:+ "value: "
                  +:+ String (ascii_of_nat 34)
                        (kv.2 +:+ String (ascii_of_nat 34)
                           (nl +:+ "}" +:+ nl
                              +:+ gen_attributes nl ind attributes rest)))).
Proof. reflexivity. Qed.

Ltac stage_attributes IH :=
  rewrite !gen_attributes_cons; cbn [fst snd];
  replace_steps; rewrite replace_unpunctuated by done;
  replace_steps; rewrite replace_unpunctuated by done;
  replace_steps; rewrite IH; reflexivity.

Lemma replace_open_attributes (attributes : list (string * string))
    (rest : string) :
  unpunctuated_attributes attributes →
  Py.replace "[" EmptyString (gen_attributes Py.newline "  " attributes rest)
  = gen_attributes Py.newline "  " attributes
      (Py.replace "[" EmptyString rest).
Proof.
  induction 1 as [|[k v] attributes [Hk Hv] _ IH]; [done|].
  unfold Py.newline in *. stage_attributes IH.
Qed.

Lemma replace_close_attributes (attributes : list (string * string))
    (rest : string) :
  unpunctuated_attributes attributes →
  Py.replace "]" EmptyString (gen_attributes Py.newline "  " attributes rest)
  = gen_attributes Py.newline "  " attributes
      (Py.replace "]" EmptyString rest).
Proof.
  induction 1 as [|[k v] attributes [Hk Hv] _ IH]; [done|].
  unfold Py.newline in *. stage_attributes IH.
Qed.

Lemma replace_newline_attributes (attributes : list (string * string))
    (rest : string) :
  unpunctuated_attributes attributes →
  Py.replace Py.newline EmptyString
    (gen_attributes Py.newline "  " attributes rest)
  = gen_attributes EmptyString "  " attributes
      (Py.replace Py.newline EmptyString rest).
Proof.
  induction 1 as [|[k v] attributes [Hk Hv] _ IH]; [done|].
  unfold Py.newline in *. stage_attributes IH.
Qed.

Lemma replace_indent_attributes (attributes : list (string * string))
    (rest : string) :
  unpunctuated_attributes attributes →
  Py.replace "  " EmptyString (gen_attributes EmptyString "  " attributes rest)
  = gen_attributes EmptyString EmptyString attributes
      (Py.replace "  " EmptyString rest).
Proof.
  induction 1 as [|[k v] attributes [Hk Hv] _ IH]; [done|].
  stage_attributes IH.
Qed.

Lemma gen_events_cons (nl ind : string) (e e' : string * list (string * string))
    (es : list (string * list (string * string))) (rest : string) :
  gen_events nl ind (e :: e' :: es) rest
  = gen_event nl ind e (", " +:+ gen_events nl ind (e' :: es) rest).
Proof. reflexivity. Qed.

Lemma gen_event_unfold (nl ind t : string) (attributes : list (string * string))
    (rest : string) :
  gen_event nl ind (t, attributes) rest
  = "type: " +:+ String (ascii_of_nat 34)
                   (t +:+ String (ascii_of_nat 34)
                      (nl +:+ gen_attributes nl ind attributes rest)).
Proof. reflexivity. Qed.

Ltac stage_event Hattrs :=
  rewrite !gen_event_unfold;
  replace_steps; rewrite replace_unpunctuated by done;
  replace_steps; rewrite Hattrs by done; unfold Py.newline.

Ltac stage_events Hattrs :=
  let t := fresh "t" in
  let attributes := fresh "attributes" in
  let e' := fresh "e" in
  let es := fresh "es" in
  let Ht := fresh "Ht" in
  let Ha := fresh "Ha" in
  let Hes := fresh "Hes" in
  let IH := fresh "IH" in
  induction 1 as [|[t attributes] es [Ht Ha] Hes IH]; [done|];
  cbn [fst snd] in *;
  destruct es as [|e' es];
  [ cbn [gen_events]; stage_event Hattrs; reflexivity
  | rewrite !gen_events_cons; stage_event Hattrs;
    replace_steps;
    try (rewrite replace_char_step by (destruct es; reflexivity));
    rewrite IH; reflexivity ].

Lemma replace_open_events (es : list (string * list (string * string)))
    (rest : string) :
  unpunctuated_events es →
  Py.replace "[" EmptyString (gen_events Py.newline "  " es rest)
  = gen_events Py.newline "  " es (Py.replace "[" EmptyString rest).
Proof. unfold Py.newline. stage_events replace_open_attributes. Qed.

Lemma replace_close_events (es : list (string * list (string * string)))
    (rest : string) :
  unpunctuated_events es →
  Py.replace "]" EmptyString (gen_events Py.newline "  " es rest)
  = gen_events Py.newline "  " es (Py.replace "]" EmptyString rest).
Proof. unfold Py.newline. stage_events replace_close_attributes. Qed.

Lemma replace_newline_events (es : list (string * list (string * string)))
    (rest : string) :
  unpunctuated_events es →
  Py.replace Py.newline EmptyString (gen_events Py.newline "  " es rest)
  = gen_events EmptyString "  " es (Py.replace Py.newline EmptyString rest).
Proof. unfold Py.newline. stage_events replace_newline_attributes. Qed.

Lemma replace_indent_events (es : list (string * list (string * string)))
    (rest : string) :
  unpunctuated_events es →
  Py.replace "  " EmptyString (gen_events EmptyString "  " es rest)
  = gen_events EmptyString EmptyString es (Py.replace "  " EmptyString rest).
Proof. stage_events replace_indent_attributes. Qed.

(** *** From the printed log to its pieces *)

Ltac norm_append :=
  repeat first
    [ rewrite append_assoc | rewrite append_String | rewrite append_Empty ].

Lemma gen_attributes_bare (attributes : list (string * string))
    (rest : string) :
  gen_attributes EmptyString EmptyString attributes rest
  = bare_attributes attributes +:+ rest.
Proof.
  induction attributes as [|kv attributes IH]; [done|].
  rewrite gen_attributes_cons, bare_attributes_cons, IH.
  norm_append. reflexivity.
Qed.

Lemma gen_event_bare (e : string * list (string * string)) (rest : string) :
  gen_event EmptyString EmptyString e rest
  = bare_event e.1 e.2 +:+ rest.
Proof.
  destruct e as [t attributes]. rewrite gen_event_unfold.
  rewrite gen_attributes_bare.
  unfold bare_event, Py.dquote. cbn [fst snd]. norm_append. reflexivity.
Qed.

Lemma no_comma_attributes (attributes : list (string * string)) :
  unpunctuated_attributes attributes →
  has_char "," (bare_attributes attributes) = false.
Proof.
  induction 1 as [|[k v] attributes [Hk Hv] _ IH]; [done|].
  unfold bare_attributes. cbn [foldr]. fold (bare_attributes attributes).
  unfold bare_attribute. cbn [fst snd] in *.
  rewrite !has_char_append, IH.
  rewrite (has_char_unpunctuated "," k), (has_char_unpunctuated "," v)
    by (done || reflexivity).
  reflexivity.
Qed.

Lemma no_comma_event (e : string * list (string * string)) :
  unpunctuated e.1 = true → unpunctuated_attributes e.2 →
  has_char "," (bare_event e.1 e.2) = false.
Proof.
  intros Ht Ha. unfold bare_event.
  rewrite !has_char_append, (no_comma_attributes e.2 Ha).
  rewrite (has_char_unpunctuated "," e.1) by (done || reflexivity).
  reflexivity.
Qed.

(** The split on the comma, entered with a text [pre] before the events. *)
Lemma split_comma_events (es : list (string * list (string * string))) :
  unpunctuated_events es →
  ∀ e pre,
    unpunctuated e.1 = true → unpunctuated_attributes e.2 → has_char "," pre = false →
    Py.split_from 0 "," EmptyString
      (pre +:+ gen_events EmptyString EmptyString (e :: es) EmptyString)
    = (pre +:+ bare_event e.1 e.2)
        :: ((λ e', " " +:+ bare_event e'.1 e'.2) <$> es).
Proof.
  induction 1 as [|e' es [Ht' Ha'] Hes IH]; intros e pre Ht Ha Hpre.
  - cbn [gen_events]. rewrite gen_event_bare, append_Empty_r.
    rewrite split_single_end; [by rewrite append_Empty|].
    by rewrite has_char_append, Hpre, no_comma_event.
  - rewrite gen_events_cons, gen_event_bare.
    change (", " +:+ gen_events EmptyString EmptyString (e' :: es) EmptyString)
      with (String "," (" " +:+ gen_events EmptyString EmptyString (e' :: es)
                                  EmptyString)).
    rewrite <- append_assoc.
    rewrite split_single
      by (by rewrite has_char_append, Hpre, no_comma_event).
    rewrite append_Empty. cbn [fmap list_fmap]. f_equal.
    by apply IH.
Qed.

(** On the text of the events of a log with unpunctuated types, keys and
    values, between brackets, the four replacements and the split on the
    comma give the texts [bare_event] of the events. *)
Lemma json_events_of_bare (es : list (string * list (string * string))) :
  unpunctuated_events es →
  json_events_of ("[" +:+ gen_events Py.newline "  " es "]") = bare_pieces es.
Proof.
  intros Hes. unfold json_events_of.
  rewrite append_String, append_Empty.
  rewrite replace_single_match, replace_open_events by done.
  change (Py.replace "[" EmptyString "]") with "]".
  rewrite replace_close_events by done.
  change (Py.replace "]" EmptyString "]") with EmptyString.
  rewrite replace_newline_events by done.
  change (Py.replace Py.newline EmptyString EmptyString) with EmptyString.
  rewrite replace_indent_events by done.
  change (Py.replace "  " EmptyString EmptyString) with EmptyString.
  unfold Py.split. destruct Hes as [|e es [Ht Ha] Hes]; [done|].
  rewrite <- (append_Empty (gen_events _ _ _ _)).
  rewrite (split_comma_events es Hes e EmptyString) by done.
  by rewrite append_Empty.
Qed.

(** *** The event loop on the pieces of a log *)

Lemma piece_unfold (first : bool) (t : string)
    (attributes : list (string * string)) :
  blank first +:+ bare_event t attributes
  = blank first
      +:+ String "t"
            ("ype: " +:+ String (ascii_of_nat 34)
                           (t +:+ String (ascii_of_nat 34)
                              (bare_attributes attributes))).
Proof. reflexivity. Qed.

Lemma contains_match (c : ascii) (old s : string) :
  Py.contains (String c old) (String c old +:+ s) = true.
Proof.
  rewrite append_String.
  change (Py.contains (String c old) (String c (old +:+ s)))
    with (String.prefix (String c old) (String c (old +:+ s))
          || Py.contains (String c old) (old +:+ s)).
  rewrite <- append_String. by rewrite prefix_append.
Qed.

Lemma piece_contains_wasm (first : bool) (attributes : list (string * string)) :
  Py.contains wasm_tag (blank first +:+ bare_event "wasm" attributes)
  = true.
Proof.
  assert (H : Py.contains wasm_tag (bare_event "wasm" attributes) = true).
  { exact (contains_match "t" ("ype: " +:+ Py.dquote +:+ "wasm" +:+ Py.dquote)
             (bare_attributes attributes)). }
  destruct first; [exact H|].
  change (blank false +:+ bare_event "wasm" attributes)
    with (String " " (bare_event "wasm" attributes)).
  by rewrite contains_char_step by reflexivity.
Qed.

Lemma piece_parse (first : bool) (h : string)
    (attributes : list (string * string)) :
  unpunctuated_attributes attributes →
  parse_bag h (blank first +:+ bare_event "wasm" attributes)
  = add_attributes {["TxnHash" := h]} attributes.
Proof.
  intros Hc. unfold parse_bag.
  assert (Hr : Py.replace "attributes {" EmptyString
                 (Py.replace wasm_tag EmptyString
                    (bare_event "wasm" attributes))
               = keyed_attributes attributes).
  { change (bare_event "wasm" attributes)
      with (String "t" ("ype: " +:+ Py.dquote +:+ "wasm" +:+ Py.dquote)
              +:+ bare_attributes attributes).
    change wasm_tag
      with (String "t" ("ype: " +:+ Py.dquote +:+ "wasm" +:+ Py.dquote)).
    rewrite replace_match, append_Empty.
    change (String "t" ("ype: " +:+ Py.dquote +:+ "wasm" +:+ Py.dquote))
      with wasm_tag.
    by rewrite replace_tag_attributes, replace_brace_attributes. }
  destruct first.
  - change (blank true +:+ bare_event "wasm" attributes)
      with (bare_event "wasm" attributes).
    rewrite Hr. unfold Py.split.
    rewrite split_keyed_attributes by done. cbn [tail].
    by apply attribute_steps_pairs.
  - change (blank false +:+ bare_event "wasm" attributes)
      with (String " " (bare_event "wasm" attributes)).
    rewrite (replace_char_step wasm_tag) by reflexivity.
    rewrite (replace_char_step "attributes {") by reflexivity.
    rewrite Hr. unfold Py.split.
    rewrite split_char_step by reflexivity.
    rewrite split_keyed_attributes by done. cbn [tail].
    by apply attribute_steps_pairs.
Qed.

Lemma prefix_tag_type (s : string) :
  String.prefix wasm_tag
    (String "t" ("ype: " +:+ String (ascii_of_nat 34) s))
  = String.prefix ("wasm" +:+ Py.dquote) s.
Proof. reflexivity. Qed.

Lemma piece_contains_other (first : bool) (t : string)
    (attributes : list (string * string)) :
  unpunctuated t = true → t ≠ "wasm" → unpunctuated_attributes attributes →
  Py.contains wasm_tag (blank first +:+ bare_event t attributes) = false.
Proof.
  intros Ht Hne Hc.
  assert (H : Py.contains wasm_tag (bare_event t attributes) = false).
  { change (bare_event t attributes)
      with (String "t"
              ("ype: " +:+ String (ascii_of_nat 34)
                             (t +:+ String (ascii_of_nat 34)
                                (bare_attributes attributes)))).
    rewrite contains_char_step.
    - contains_steps. rewrite contains_unpunctuated by done.
      contains_steps. by apply contains_tag_attributes.
    - rewrite prefix_tag_type.
      destruct (String.prefix _ _) eqn:Hp; [|done].
      exfalso. apply Hne. by apply prefix_type_name in Hp. }
  destruct first; [exact H|].
  change (blank false +:+ bare_event t attributes)
    with (String " " (bare_event t attributes)).
  by rewrite contains_char_step by reflexivity.
Qed.

(** One piece of the log goes through the event loop as its event does. *)
Lemma filter_event_piece (a : action_arg) (w : option string) (h : string)
    (fd : list Event) (first : bool) (e : string * list (string * string)) :
  unpunctuated e.1 = true → unpunctuated_attributes e.2 →
  filter_event a w h fd (blank first +:+ bare_event e.1 e.2)
  = filter_structured a w h fd e.
Proof.
  destruct e as [t attributes]. cbn [fst snd]. intros Ht Hc.
  unfold filter_event, filter_structured. cbn [fst snd].
  case_decide as Hw.
  - subst t. by rewrite piece_contains_wasm, piece_parse.
  - by rewrite piece_contains_other.
Qed.

Lemma filter_pieces_blank (a : action_arg) (w : option string) (h : string)
    (es : list (string * list (string * string))) :
  unpunctuated_events es →
  ∀ fd,
    ofold (filter_event a w h) fd
      ((λ e, " " +:+ bare_event e.1 e.2) <$> es)
    = ofold (filter_structured a w h) fd es.
Proof.
  induction 1 as [|e es [Ht Hc] _ IH]; intros fd; [done|].
  cbn [fmap list_fmap ofold].
  pose proof (filter_event_piece a w h fd false e Ht Hc) as Hp.
  change (blank false) with " " in Hp. rewrite Hp.
  destruct (filter_structured a w h fd e); simpl; [apply IH|done..].
Qed.

(** On the text of the events of a log with unpunctuated types, keys and
    values, between brackets, the loop over the events does what it would
    do on the events themselves. *)
Lemma filter_log_bare (a : action_arg) (w : option string)
    (h : string) (fd : list Event)
    (es : list (string * list (string * string))) :
  unpunctuated_events es →
  filter_log a w h fd ("[" +:+ gen_events Py.newline "  " es "]")
  = ofold (filter_structured a w h) fd es.
Proof.
  intros Hes. unfold filter_log, json_events_of.
  rewrite append_String, append_Empty.
  rewrite replace_single_match, replace_open_events by done.
  change (Py.replace "[" EmptyString "]") with "]".
  rewrite replace_close_events by done.
  change (Py.replace "]" EmptyString "]") with EmptyString.
  rewrite replace_newline_events by done.
  change (Py.replace Py.newline EmptyString EmptyString) with EmptyString.
  rewrite replace_indent_events by done.
  change (Py.replace "  " EmptyString EmptyString) with EmptyString.
  unfold Py.split. destruct Hes as [|e es [Ht Ha] Hes]; [done|].
  rewrite <- (append_Empty (gen_events _ _ _ _)).
  rewrite (split_comma_events es Hes e EmptyString) by done.
  cbn [ofold].
  pose proof (filter_event_piece a w h fd true e Ht Ha) as Hp.
  change (blank true) with EmptyString in Hp. rewrite Hp.
  destruct (filter_structured a w h fd e); simpl; [|done..].
  by apply filter_pieces_blank.
Qed.

(** *** The text that the protobuf library prints *)

Lemma escape_char (c : ascii) (r : string) :
  escaped c = false →
  foldr (λ b rest, Wire.escape_byte b +:+ rest) r (Wire.utf8 c) = String c r.
Proof.
  destruct c as [[] [] [] [] [] [] [] []]; intros H;
    try (vm_compute in H; discriminate H); reflexivity.
Qed.

(** A plain string is printed as it is. *)
Lemma escape_plain (s : string) : plain s = true → Wire.escape s = s.
Proof.
  induction s as [|c s IH]; [done|]. cbn [plain Wire.escape]. intros H.
  apply andb_true_iff in H as [H Hs]. apply andb_true_iff in H as [Hc _].
  apply negb_true_iff in Hc. by rewrite IH, escape_char.
Qed.

Lemma plain_unpunctuated (s : string) : plain s = true → unpunctuated s = true.
Proof.
  induction s as [|c s IH]; [done|]. cbn [plain unpunctuated]. intros H.
  apply andb_true_iff in H as [H Hs]. apply andb_true_iff in H as [_ Hc].
  by rewrite Hc, IH.
Qed.

Lemma clean_unpunctuated (s : string) : clean s = true → unpunctuated s = true.
Proof. destruct s; [done|]. apply plain_unpunctuated. Qed.

Lemma clean_attributes_unpunctuated (attributes : list (string * string)) :
  clean_attributes attributes → unpunctuated_attributes attributes.
Proof.
  intros H. eapply Forall_impl; [exact H|]. intros kv [Hk Hv].
  split; by apply clean_unpunctuated.
Qed.

Lemma clean_events_unpunctuated (es : list (string * list (string * string))) :
  clean_events es → unpunctuated_events es.
Proof.
  intros H. eapply Forall_impl; [exact H|]. intros e [Ht Ha].
  split; [by apply clean_unpunctuated|by apply clean_attributes_unpunctuated].
Qed.

(** A clean string is printed between quotes as it is. *)
Lemma field_clean (nl ind name value rest : string) :
  clean value = true →
  Wire.field nl ind name value +:+ rest
  = ind +:+ name +:+ ": "
      +:+ String (ascii_of_nat 34)
            (value +:+ String (ascii_of_nat 34) (nl +:+ rest)).
Proof.
  intros H. destruct value as [|c value]; [done|].
  unfold Wire.field. rewrite escape_plain by exact H.
  unfold Py.dquote. norm_append. reflexivity.
Qed.

Lemma wire_attributes (nl ind : string) (attributes : list (string * string))
    (rest : string) :
  clean_attributes attributes →
  foldr (λ kv acc, Wire.attribute_with nl ind kv +:+ acc) EmptyString
    attributes +:+ rest
  = gen_attributes nl ind attributes rest.
Proof.
  induction 1 as [|[k v] attributes [Hk Hv] _ IH]; [done|].
  cbn [foldr fst snd] in *. rewrite append_assoc, IH, gen_attributes_cons.
  unfold Wire.attribute_with. cbn [fst snd].
  rewrite !append_assoc, (field_clean nl ind "key" k) by done.
  rewrite (field_clean nl ind "value" v) by done.
  norm_append. reflexivity.
Qed.

Lemma wire_event (nl ind t : string) (attributes : list (string * string))
    (rest : string) :
  clean t = true → clean_attributes attributes →
  Wire.event_with nl ind t attributes +:+ rest
  = gen_event nl ind (t, attributes) rest.
Proof.
  intros Ht Ha. unfold Wire.event_with.
  rewrite gen_event_unfold, <- wire_attributes by done.
  rewrite append_assoc, (field_clean nl EmptyString "type" t) by done.
  norm_append. reflexivity.
Qed.

Lemma wire_join (es : list (string * list (string * string))) (rest : string) :
  clean_events es →
  Wire.join ((λ e, Wire.event e.1 e.2) <$> es) +:+ rest
  = gen_events Py.newline "  " es rest.
Proof.
  induction 1 as [|[t attributes] es [Ht Ha] Hes IH]; [done|].
  cbn [fst snd] in *. destruct es as [|e' es].
  - cbn [fmap list_fmap Wire.join gen_events fst snd]. by apply wire_event.
  - rewrite gen_events_cons, <- IH.
    cbn [fmap list_fmap Wire.join fst snd].
    unfold Wire.event at 1. rewrite append_assoc, wire_event by done.
    by rewrite append_assoc.
Qed.

(** The text of a clean event without line ends and indentation. *)
Lemma stripped_event_bare (t : string) (attributes : list (string * string)) :
  clean t = true → clean_attributes attributes →
  stripped_event t attributes = bare_event t attributes.
Proof.
  intros Ht Ha.
  rewrite <- (append_Empty_r (stripped_event t attributes)).
  unfold stripped_event. rewrite wire_event by done.
  rewrite (gen_event_bare (t, attributes)). cbn [fst snd].
  apply append_Empty_r.
Qed.

Lemma event_pieces_bare (es : list (string * list (string * string))) :
  clean_events es → event_pieces es = bare_pieces es.
Proof.
  intros Hes. destruct Hes as [|e es [Ht Ha] Hes]; [done|].
  cbn [event_pieces bare_pieces]. f_equal; [by apply stripped_event_bare|].
  induction Hes as [|e' es [Ht' Ha'] _ IH]; [done|].
  cbn [fmap list_fmap]. f_equal; [|exact IH].
  by rewrite stripped_event_bare.
Qed.

Lemma events_sample_clean : clean_events events_sample.
Proof.
  unfold events_sample, clean_events, attributes_two_contracts.
  repeat (apply Forall_cons; split;
          [split; [reflexivity|];
           repeat (apply Forall_cons; split; [split; reflexivity|]);
           by apply Forall_nil|]).
  by apply Forall_nil.
Qed.

(** X18: take a wasm event whose keys and values are clean, that is, not
    empty and free of the characters that the protobuf library escapes and
    of the punctuation of the log text.  On the text that the library
    prints for it, without the line ends and the indentation that the
    replacements take out, and with or without the blank that follows a
    comma, the parser finds the wasm tag and builds the bag that the
    attribute loop builds from the list of keys and values, in their
    order. *)
Theorem parse_bag_stripped_event (h : string)
    (attributes : list (string * string)) :
  clean_attributes attributes →
  Py.contains wasm_tag (stripped_event "wasm" attributes) = true
  ∧ Py.contains wasm_tag (" " +:+ stripped_event "wasm" attributes) = true
  ∧ parse_bag h (stripped_event "wasm" attributes)
    = add_attributes {["TxnHash" := h]} attributes
  ∧ parse_bag h (" " +:+ stripped_event "wasm" attributes)
    = add_attributes {["TxnHash" := h]} attributes.
Proof.
  intros Hc. rewrite (stripped_event_bare "wasm" attributes eq_refl Hc).
  by apply parse_bag_bare_event, clean_attributes_unpunctuated.
Qed.

Lemma parse_bag_stripped_event_witness :
  Py.contains wasm_tag (stripped_event "wasm" attributes_two_contracts) = true
  ∧ Py.contains wasm_tag
      (" " +:+ stripped_event "wasm" attributes_two_contracts) = true
  ∧ parse_bag "H1" (stripped_event "wasm" attributes_two_contracts)
    = add_attributes {["TxnHash" := "H1"]} attributes_two_contracts
  ∧ parse_bag "H1" (" " +:+ stripped_event "wasm" attributes_two_contracts)
    = add_attributes {["TxnHash" := "H1"]} attributes_two_contracts.
Proof.
  apply (parse_bag_stripped_event "H1" attributes_two_contracts).
  unfold attributes_two_contracts, clean_attributes.
  repeat (apply Forall_cons; split; [split; reflexivity|]).
  apply Forall_nil. exact I.
Defined.

(** X19: on the text that the protobuf library prints for the events of a
    log, with clean types, keys and values, the four replacements and the
    split on the comma give one piece for each event, in order: the text of
    the event without line ends and indentation, after the blank that
    followed the comma for every event but the first. *)
Theorem json_events_of_log (es : list (string * list (string * string))) :
  clean_events es →
  json_events_of (Wire.events ((λ e, Wire.event e.1 e.2) <$> es))
  = event_pieces es.
Proof.
  intros Hes. unfold Wire.events.
  rewrite wire_join, event_pieces_bare by done.
  by apply json_events_of_bare, clean_events_unpunctuated.
Qed.

Lemma json_events_of_log_witness :
  json_events_of (Wire.events ((λ e, Wire.event e.1 e.2) <$> events_sample))
  = event_pieces events_sample.
Proof. exact (json_events_of_log events_sample events_sample_clean). Defined.

(** X20: on the text that the protobuf library prints for the events of a
    log, with clean types, keys and values, the loop over the events does
    what it would do on the events themselves, one after the other: it
    passes over every event whose type is not [wasm], and for a wasm event
    it builds the bag from the keys and values in order, applies the two
    tests to it, decodes it and appends the event. *)
Theorem filter_log_structured (a : action_arg) (w : option string)
    (h : string) (fd : list Event)
    (es : list (string * list (string * string))) :
  clean_events es →
  filter_log a w h fd (Wire.events ((λ e, Wire.event e.1 e.2) <$> es))
  = ofold (filter_structured a w h) fd es.
Proof.
  intros Hes. unfold Wire.events. rewrite wire_join by done.
  by apply filter_log_bare, clean_events_unpunctuated.
Qed.

Lemma filter_log_structured_witness :
  filter_log ActNone None "H1" []
    (Wire.events ((λ e, Wire.event e.1 e.2) <$> events_sample))
  = ofold (filter_structured ActNone None "H1") [] events_sample.
Proof.
  exact (filter_log_structured ActNone None "H1" [] events_sample
           events_sample_clean).
Defined.

Example filter_log_sample :
  filter_log ActNone None "H1" []
    (Wire.events ((λ e, Wire.event e.1 e.2) <$> events_sample))
  = Ret [event_two_contracts].
Proof. vm_cast_no_check (eq_refl (Ret [event_two_contracts])). Qed.

(** Outside the clean events the text is another one.  An attribute whose
    value is empty is printed without its value, and the parser raises
    [IndexError] at it; a quote in a value is printed after a backslash,
    which the parser leaves in the value. *)
Example filter_log_unclean :
  filter_log ActNone None "H1" [] (Wire.events [event_empty_value])
    = Raise IndexError
  ∧ parse_bag "H1"
      (Py.replace "  " EmptyString
         (Py.replace Py.newline EmptyString event_quoted_value))
    = Ret (<["from1" := String "o" (String Wire.backslash
                                      (String (ascii_of_nat 39) "neil"))]>
             (<["id1" := "ABC/XYZ-17"]> {["TxnHash" := "H1"]})).
Proof.
  split.
  - vm_cast_no_check (eq_refl (@Raise (list Event) IndexError)).
  - vm_compute. reflexivity.
Qed.
